(** * Distribution query and rebinning engine of the prediction-market dashboard

    A shallow embedding of [code/interactive_webapp/backend.py].

    Conventions of the embedding:
    - a pandas [DataFrame] is the list of its rows, in index order;
    - the numeric columns [strike] and [probability] are exact rationals
      ([Qc], canonical fractions with Leibniz equality), so sums are exact;
    - a pandas [Timestamp] is its integer value, nanoseconds since the Unix
      epoch; a date column is nullable, [None] being [NaT];
    - a Python [dict] is a [gmap];
    - an exception raised by a library call is the [None] of an outer
      [option];
    - the process-wide table [kalshi_data] and the wall clock are explicit
      arguments of the functions that read them. *)

From Stdlib Require Import QArith Qcanon Ascii.
From stdpp Require Import base numbers list sorting strings gmap fin_maps.

Local Open Scope Qc_scope.

(** ** Rows and series *)

(** A [Timestamp] value, as the integer pandas stores. *)
Abbreviation Timestamp := Z (only parsing).

(** A cell of a datetime column: a [Timestamp] or [NaT]. *)
Abbreviation datetime := (option Z) (only parsing).

(** One row of the normalized table (the columns the backend reads). *)
Record Row := mkRow {
  type : string;
  contract_preamble : string;
  prediction_date : datetime;
  horizon_date : datetime;
  strike : Qc;
  probability : Qc
}.

(** A row of the two-column frame [[['strike', 'probability']]]. *)
Abbreviation Bin := (Qc * Qc)%type (only parsing).

(** [==] and [<] on datetime cells: every comparison with [NaT] is false. *)
Definition dt_eqb (a b : datetime) : bool :=
  match a, b with
  | Some x, Some y => bool_decide (x = y)
  | _, _ => false
  end.

Definition dt_ltb (a b : datetime) : bool :=
  match a, b with
  | Some x, Some y => bool_decide (x < y)%Z
  | _, _ => false
  end.

(** [Series.sum()] of the [probability] column. *)
Definition sum_probability (s : list Bin) : Qc :=
  foldr (λ r acc, r.2 + acc) 0 s.

(** ** Generic frame operations *)

(** An insertion sort by a boolean order [le]; used for every [sort_values]
    and [sorted].  pandas' default sort is not stable and may order rows with
    equal keys differently: this definition stands for it on frames whose
    sort keys are pairwise distinct, where every sorting algorithm returns
    the same list.  The statements below that depend on the order of a
    sorted frame assume distinct keys; the others speak of sums and of
    membership, which no ordering of ties changes. *)
Fixpoint insert_sorted {A} (le : A → A → bool) (x : A) (l : list A) : list A :=
  match l with
  | [] => [x]
  | y :: l' => if le x y then x :: y :: l' else y :: insert_sorted le x l'
  end.

Definition sort_by {A} (le : A → A → bool) (l : list A) : list A :=
  foldr (insert_sorted le) [] l.

(** [drop_duplicates()] and [unique()]: the first occurrence of every value
    is kept, in order. *)
Fixpoint unique `{EqDecision A} (l : list A) : list A :=
  match l with
  | [] => []
  | x :: l' => x :: filter (λ y, y ≠ x) (unique l')
  end.

(** [Series.max()] of a datetime column: [NaT] cells are skipped, and the
    result is [NaT] when nothing is left. *)
Definition dt_max (l : list datetime) : datetime :=
  foldr (λ c acc,
           match c, acc with
           | Some x, Some y => Some (x `max` y)%Z
           | Some x, None => Some x
           | None, _ => acc
           end) None l.

(** Ascending order on datetime cells with [NaT] last, as [sort_values]
    places it. *)
Definition dt_leb_nat_last (a b : datetime) : bool :=
  match a, b with
  | Some x, Some y => bool_decide (x ≤ y)%Z
  | _, None => true
  | None, Some _ => false
  end.

(** [sort_values('strike')] on a strike/probability frame. *)
Definition sort_values (s : list Bin) : list Bin :=
  sort_by (λ r r', bool_decide (r.1 ≤ r'.1)) s.

(** ** The rebinning steps of [get_distribution] *)

(** [row['probability'] + lump if row['strike'] == bound else row['probability']]
    applied to every row ([DataFrame.assign] over [apply(..., axis=1)]). *)
Definition add_lump (bound lump : Qc) (s : list Bin) : list Bin :=
  (λ r, if decide (r.1 = bound) then (r.1, r.2 + lump) else r) <$> s.

(** The block under [# Handle lower bound], for a supplied [smallest_bin]. *)
Definition handle_lower_bound (smallest_bin : Qc) (subset : list Bin) : list Bin :=
  let lower := filter (λ r, r.1 < smallest_bin) subset in
  let lump := sum_probability lower in
  let subset := filter (λ r, smallest_bin ≤ r.1) subset in
  if decide (0 < lump) then
    if decide (smallest_bin ∉ subset.*1)
    then (smallest_bin, lump) :: subset
    else add_lump smallest_bin lump subset
  else subset.

(** The block under [# Handle upper bound], for a supplied [largest_bin]. *)
Definition handle_upper_bound (largest_bin : Qc) (subset : list Bin) : list Bin :=
  let upper := filter (λ r, largest_bin < r.1) subset in
  let lump := sum_probability upper in
  let subset := filter (λ r, r.1 ≤ largest_bin) subset in
  if decide (0 < lump) then
    if decide (largest_bin ∉ subset.*1)
    then subset ++ [(largest_bin, lump)]
    else add_lump largest_bin lump subset
  else subset.

(** An optional bound that is [None] skips its block. *)
Definition with_bound (step : Qc → list Bin → list Bin)
    (bound : option Qc) (subset : list Bin) : list Bin :=
  match bound with
  | Some b => step b subset
  | None => subset
  end.

(** The body of the loop over [prediction_dates], from the emptiness test to
    the sorted records stored under [output[date_str]]. *)
Definition rebin (smallest_bin largest_bin : option Qc) (subset : list Bin) : list Bin :=
  match subset with
  | [] => []
  | _ =>
      sort_values
        (with_bound handle_upper_bound largest_bin
           (with_bound handle_lower_bound smallest_bin subset))
  end.

(** ** Calendar arithmetic on timestamps *)

Local Open Scope Z_scope.

Definition ns_per_day : Z := 86400 * 1000000000.

(** Days since the Unix epoch of the civil date [y]-[m]-[d] (proleptic
    Gregorian calendar). *)
Definition days_from_civil (y m d : Z) : Z :=
  let y' := if bool_decide (m ≤ 2) then y - 1 else y in
  let era := y' `div` 400 in
  let yoe := y' - era * 400 in
  let mp := if bool_decide (2 < m) then m - 3 else m + 9 in
  let doy := (153 * mp + 2) `div` 5 + d - 1 in
  let doe := yoe * 365 + yoe `div` 4 - yoe `div` 100 + doy in
  era * 146097 + doe - 719468.

(** The civil date [(y, m, d)] of a day number; inverse of [days_from_civil]. *)
Definition civil_from_days (z : Z) : Z * Z * Z :=
  let z := z + 719468 in
  let era := z `div` 146097 in
  let doe := z - era * 146097 in
  let yoe := (doe - doe `div` 1460 + doe `div` 36524 - doe `div` 146096) `div` 365 in
  let doy := doe - (365 * yoe + yoe `div` 4 - yoe `div` 100) in
  let mp := (5 * doy + 2) `div` 153 in
  let d := doy - (153 * mp + 2) `div` 5 + 1 in
  let m := if bool_decide (mp < 10) then mp + 3 else mp - 9 in
  (if bool_decide (m ≤ 2) then yoe + era * 400 + 1 else yoe + era * 400, m, d).

(** The [Timestamp] of midnight on [y]-[m]-[d]: what [pd.to_datetime] returns
    for the text [YYYY-MM-DD]. *)
Definition midnight (y m d : Z) : Timestamp := days_from_civil y m d * ns_per_day.

(** [Timestamp.date()], as a day number; [NaT.date()] is [NaT]. *)
Definition date (t : datetime) : datetime := (λ x, x `div` ns_per_day) <$> t.

(** [Timestamp.normalize()]: midnight of the same day. *)
Definition normalize (t : Timestamp) : Timestamp := t `div` ns_per_day * ns_per_day.

(** [strftime('%Y-%m-%d')]. *)
Definition digit (n : Z) : ascii := ascii_of_N (Z.to_N (48 + n `mod` 10)).

Definition strftime (t : Timestamp) : string :=
  let '(y, m, d) := civil_from_days (t `div` ns_per_day) in
  String (digit (y `div` 1000)) (String (digit (y `div` 100)) (String (digit (y `div` 10))
    (String (digit y) (String "-" (String (digit (m `div` 10)) (String (digit m)
      (String "-" (String (digit (d `div` 10)) (String (digit d) EmptyString))))))))).

Local Close Scope Z_scope.

(** ** Loading the table *)

(** A parsed line of a daily-distribution CSV file. *)
Record CsvRow := mkCsvRow {
  csv_date : datetime;
  csv_expiry_date : datetime;
  csv_contract_preamble : string;
  csv_strike : Qc;
  csv_probability : Qc
}.

(** [load_and_process_csv], after [pd.read_csv] has parsed the file: the
    [type] column is added and the two date columns are renamed. *)
Definition load_and_process_csv (file : list CsvRow) (data_type : string) : list Row :=
  (λ c, {| type := data_type;
           contract_preamble := csv_contract_preamble c;
           prediction_date := csv_date c;
           horizon_date := csv_expiry_date c;
           strike := csv_strike c;
           probability := csv_probability c |}) <$> file.

(** [HORIZON_MAP], each date text already converted by [pd.to_datetime]. *)
Definition HORIZON_MAP : gmap string Z :=
  {[ "FED-25JUL" := midnight 2025 7 30;
     "FED-25SEP" := midnight 2025 9 17;
     "FED-25OCT" := midnight 2025 10 29;
     "FED-25DEC" := midnight 2025 12 10 ]}.

(** The lambda applied to each row by [apply_horizon_override]. *)
Definition override_horizon (row : Row) : datetime :=
  match HORIZON_MAP !! contract_preamble row with
  | Some t => Some t
  | None => horizon_date row
  end.

(** [apply_horizon_override]: the [horizon_date] column is reassigned row by
    row. *)
Definition apply_horizon_override (df : list Row) : list Row :=
  (λ row, {| type := type row;
             contract_preamble := contract_preamble row;
             prediction_date := prediction_date row;
             horizon_date := override_horizon row;
             strike := strike row;
             probability := probability row |}) <$> df.

(** [kalshi_data], from the two parsed files. *)
Definition kalshi_data (fed_levels headline_cpi_releases : list CsvRow) : list Row :=
  apply_horizon_override (load_and_process_csv fed_levels "fed_levels")
  ++ load_and_process_csv headline_cpi_releases "headline_cpi_releases".

(** ** The query surface *)

(** The rows of one contract: [kalshi_data[kalshi_data['contract_preamble'] == c]]. *)
Definition rows_of_contract (table : list Row) (contract : string) : list Row :=
  filter (λ r, contract_preamble r = contract) table.

(** [GET /contracts].  An absent or empty [type] is falsy and filters
    nothing. *)
Definition get_contracts (table : list Row) (data_type : option string) : list string :=
  let df :=
    match data_type with
    | Some t => if bool_decide (t = "") then table
                else filter (λ r, type r = t) table
    | None => table
    end in
  let pairs := (λ r, (contract_preamble r, horizon_date r)) <$> df in
  let pairs := filter (λ p, is_Some p.2) pairs in
  let pairs := unique pairs in
  let pairs := sort_by (λ a b, dt_leb_nat_last b.2 a.2) pairs in
  pairs.*1.

(** [GET /types]. *)
Definition get_types (table : list Row) : list string :=
  unique (type <$> table).

(** [GET /prediction-dates]. *)
Definition get_prediction_dates (table : list Row)
    (contract data_type : string) : list string :=
  let filtered :=
    filter (λ r, contract_preamble r = contract ∧ type r = data_type) table in
  match filtered with
  | [] => []
  | _ => sort_by String.leb (unique (strftime <$> omap prediction_date filtered))
  end.

(** The value returned by [GET /distribution]. *)
Record Distribution := mkDistribution {
  strike_labels : list Qc;
  data : gmap string (list Bin)
}.

Section distribution.
(** [pd.to_datetime] on the date texts of one request: a [Timestamp], [NaT],
    or an exception ([None]) for a text it cannot read.  The texts [now] and
    [today] are read from the clock, so this is the reader at the clock
    reading of the request; [handle] below takes it from the clock. *)
Variable to_datetime : string → option datetime.

(** [df[df['prediction_date'] == d][['strike', 'probability']]]. *)
Definition series_at (df : list Row) (d : datetime) : list Bin :=
  (λ r, (strike r, probability r)) <$> filter (λ r, dt_eqb (prediction_date r) d) df.

(** The loop over [prediction_dates], threading the [output] dict. *)
Fixpoint distribution_loop (df : list Row) (smallest_bin largest_bin : option Qc)
    (prediction_dates : list string) (output : gmap string (list Bin))
    : option (gmap string (list Bin)) :=
  match prediction_dates with
  | [] => Some output
  | date_str :: rest =>
      d ← to_datetime date_str;
      distribution_loop df smallest_bin largest_bin rest
        (<[date_str := rebin smallest_bin largest_bin (series_at df d)]> output)
  end.

(** [GET /distribution], called with the request FastAPI has validated. *)
Definition get_distribution (table : list Row) (contract : string)
    (prediction_dates : list string) (smallest_bin largest_bin : option Qc)
    : option Distribution :=
  let df := rows_of_contract table contract in
  output ← distribution_loop df smallest_bin largest_bin prediction_dates ∅;
  Some {| strike_labels :=
            sort_by (λ a b, bool_decide (a ≤ b)) (unique (strike <$> df));
          data := output |}.
End distribution.

(** The value returned by [GET /contract-info] for a known contract. *)
Record ContractInfo := mkContractInfo {
  info_horizon_date : datetime;
  info_previous_horizon_date : datetime;
  info_latest_prediction_date : datetime
}.

(** [GET /contract-info].  [now] is the clock reading behind
    [pd.to_datetime("today")]; the result [None] is the empty dict returned
    for an unknown contract. *)
Definition get_contract_info (now : Timestamp) (table : list Row)
    (contract : string) : option ContractInfo :=
  let df := rows_of_contract table contract in
  match df with
  | [] => None
  | first :: _ =>
      let this_type := type first in
      let this_horizon := horizon_date first in
      let latest_pred := dt_max (prediction_date <$> df) in
      let today := normalize now in
      let type_horizons :=
        (λ r, (contract_preamble r, horizon_date r))
          <$> filter (λ r, type r = this_type) table in
      let type_horizons :=
        sort_by (λ a b, dt_leb_nat_last a.2 b.2) (unique type_horizons) in
      let previous_horizons := filter (λ p, dt_ltb p.2 this_horizon) type_horizons in
      let past_horizons := filter (λ p, dt_ltb p.2 (Some today)) previous_horizons in
      let previous_valid :=
        match past_horizons with
        | [] => None
        | _ => dt_max past_horizons.*2
        end in
      Some {| info_horizon_date := date this_horizon;
              info_previous_horizon_date := date previous_valid;
              info_latest_prediction_date := date latest_pred |}
  end.

(** The five operations as one request handler, for statements that range
    over the whole surface.  [now] is the clock reading of the request, and
    [to_datetime now] is [pd.to_datetime] at that reading. *)
Inductive Query :=
  | ListContracts (data_type : option string)
  | ListTypes
  | ListPredictionDates (contract data_type : string)
  | FetchDistribution (contract : string) (prediction_dates : list string)
      (smallest_bin largest_bin : option Qc)
  | FetchContractInfo (contract : string).

Inductive Response :=
  | Contracts (contracts : list string)
  | Types (types : list string)
  | Dates (dates : list string)
  | DistributionOf (d : Distribution)
  | ContractInfoOf (info : option ContractInfo)
  | ServerError.

Definition handle (to_datetime : Timestamp → string → option datetime)
    (now : Timestamp) (table : list Row) (query : Query) : Response :=
  match query with
  | ListContracts t => Contracts (get_contracts table t)
  | ListTypes => Types (get_types table)
  | ListPredictionDates c t => Dates (get_prediction_dates table c t)
  | FetchDistribution c ds lo hi =>
      match get_distribution (to_datetime now) table c ds lo hi with
      | Some d => DistributionOf d
      | None => ServerError
      end
  | FetchContractInfo c => ContractInfoOf (get_contract_info now table c)
  end.

(** ** Vocabulary of the statements *)

(** The series handed to [sort_values], for a series that is not empty. *)
Definition truncate (smallest_bin largest_bin : option Qc) (s : list Bin) : list Bin :=
  with_bound handle_upper_bound largest_bin
    (with_bound handle_lower_bound smallest_bin s).

(** Every probability of the series is non-negative. *)
Definition nonneg (s : list Bin) : Prop := Forall (λ r, 0 ≤ r.2) s.

(** The supplied bounds are in order. *)
Definition bounds_ordered (smallest_bin largest_bin : option Qc) : Prop :=
  match smallest_bin, largest_bin with
  | Some lo, Some hi => lo ≤ hi
  | _, _ => True
  end.

(** The bounds cut nothing: none is supplied, or both are and every strike
    lies strictly between them. *)
Definition vacuous_bounds (smallest_bin largest_bin : option Qc) (s : list Bin) : Prop :=
  (smallest_bin = None ∧ largest_bin = None) ∨
  (∃ lo hi, smallest_bin = Some lo ∧ largest_bin = Some hi ∧
            Forall (λ r, lo < r.1 ∧ r.1 < hi) s).

(** No row of the table belongs to the contract. *)
Definition unknown_contract (table : list Row) (contract : string) : Prop :=
  contract ∉ contract_preamble <$> table.

(** Every requested date text is one [to_datetime] reads. *)
Definition readable_dates (to_datetime : string → option datetime)
    (prediction_dates : list string) : Prop :=
  Forall (λ date_str, is_Some (to_datetime date_str)) prediction_dates.

(** [first] is the first row of the table that belongs to the contract: the
    row whose category and horizon the metadata take as the contract's. *)
Definition first_row_of (table : list Row) (contract : string) (first : Row) : Prop :=
  ∃ pre post, table = pre ++ first :: post ∧
              contract_preamble first = contract ∧
              Forall (λ r, contract_preamble r ≠ contract) pre.

(** [h] is the horizon of some row of the category of the row [first], it is
    strictly earlier than the horizon of [first], and strictly earlier than
    [today]. *)
Definition resolved_horizon (table : list Row) (first : Row)
    (today : Timestamp) (h : Timestamp) : Prop :=
  ∃ r h0, r ∈ table ∧ type r = type first ∧ horizon_date r = Some h ∧
          horizon_date first = Some h0 ∧ (h < h0)%Z ∧ (h < today)%Z.

(** [result] is the latest such horizon, or [NaT] when there is none. *)
Definition latest_resolved_horizon (table : list Row) (first : Row)
    (today : Timestamp) (result : datetime) : Prop :=
  match result with
  | Some h => resolved_horizon table first today h ∧
              ∀ h', resolved_horizon table first today h' → (h' ≤ h)%Z
  | None => ∀ h, ¬ resolved_horizon table first today h
  end.

(** What each step keeps of an invariant of the series. *)
Record step_preserves (step : list Bin → list Bin) (s : list Bin) : Prop := {
  step_NoDup : NoDup s.*1 → NoDup (step s).*1;
  step_nonneg : nonneg s → nonneg (step s);
  step_sum : NoDup s.*1 → nonneg s →
             sum_probability (step s) = sum_probability s
}.

(** ** Sample data *)

Definition q (n : Z) (d : positive) : Qc := Q2Qc (n # d).

Definition ex_series : list Bin := [(q 10 1, q 1 10); (q 20 1, q 3 10); (q 30 1, q 6 10)].

(** A reader of date texts of the form [YYYY-MM-DD]; the empty text gives
    [NaT] and any other text is refused. *)
Definition digit_value (c : ascii) : option Z :=
  let n := (Z.of_N (N_of_ascii c) - 48)%Z in
  if bool_decide (0 ≤ n ≤ 9)%Z then Some n else None.

Definition iso_to_datetime (text : string) : option datetime :=
  match text with
  | EmptyString => Some None
  | String y1 (String y2 (String y3 (String y4 (String "-" (String m1 (String m2
      (String "-" (String d1 (String d2 EmptyString))))))))) =>
      y1 ← digit_value y1; y2 ← digit_value y2; y3 ← digit_value y3;
      y4 ← digit_value y4; m1 ← digit_value m1; m2 ← digit_value m2;
      d1 ← digit_value d1; d2 ← digit_value d2;
      Some (Some (midnight (1000 * y1 + 100 * y2 + 10 * y3 + y4)
                           (10 * m1 + m2) (10 * d1 + d2))%Z)
  | _ => None
  end.

(** The same reader with a clock: the texts [now] and [today] give the clock
    reading. *)
Definition clock_to_datetime (now : Timestamp) (text : string) : option datetime :=
  if bool_decide (text = "now" ∨ text = "today") then Some (Some now)
  else iso_to_datetime text.

Definition ex_row ty c pd hd s p : Row := mkRow ty c (Some pd) (Some hd) s p.

Definition ex_table : list Row :=
  [ ex_row "fed_levels" "FED-25JUL" (midnight 2025 7 1) (midnight 2025 7 30) (q 425 100) (q 8 10);
    ex_row "fed_levels" "FED-25JUL" (midnight 2025 7 1) (midnight 2025 7 30) (q 45 10) (q 2 10);
    ex_row "fed_levels" "FED-25JUN" (midnight 2025 6 1) (midnight 2025 6 18) (q 425 100) (q 1 1);
    ex_row "fed_levels" "FED-25MAR" (midnight 2025 3 1) (midnight 2025 3 19) (q 425 100) (q 1 1);
    ex_row "headline_cpi_releases" "CPI-25JUN" (midnight 2025 5 1) (midnight 2025 7 15) (q 3 10) (q 1 1) ].

(** ** Further vocabulary *)

(** The strike [x] respects each bound that is supplied. *)
Definition in_bounds (smallest_bin largest_bin : option Qc) (x : Qc) : Prop :=
  (∀ lo, smallest_bin = Some lo → lo ≤ x) ∧
  (∀ hi, largest_bin = Some hi → x ≤ hi).

(** The strike [x] lies strictly inside each bound that is supplied. *)
Definition strictly_inside (smallest_bin largest_bin : option Qc) (x : Qc) : Prop :=
  (∀ lo, smallest_bin = Some lo → lo < x) ∧
  (∀ hi, largest_bin = Some hi → x < hi).

(** The row [r] passes the category filter of [get_contracts]: an absent or
    empty [type] lets every row pass. *)
Definition in_category (data_type : option string) (r : Row) : Prop :=
  match data_type with
  | Some t => t = "" ∨ type r = t
  | None => True
  end.

(** A series in which the strike 20 occurs twice. *)
Definition dup_series : list Bin :=
  [(q 10 1, q 1 10); (q 20 1, q 3 10); (q 20 1, q 3 10)].

(** ** Proof steps *)

(** Case analysis on every [decide] of the goal, as the branches of the two
    truncation blocks. *)
Ltac step_cases :=
  repeat match goal with
  | |- context [decide ?P] => destruct (decide P)
  end.

(** A closed decidable statement, settled by evaluating its decision
    procedure. *)
Ltac by_evaluation :=
  lazymatch goal with
  | |- ?P => apply (bool_decide_unpack P); vm_compute; exact I
  end.

(** * Properties *)

(** ** Sorting *)

Section sort_by.
Context {A : Type} (le : A → A → bool).

Lemma insert_sorted_perm x l : insert_sorted le x l ≡ₚ x :: l.
Proof.
  induction l as [|y l IH]; simpl; [done|].
  destruct (le x y); [done|].
  rewrite IH. apply Permutation_swap.
Qed.

Lemma sort_by_perm l : sort_by le l ≡ₚ l.
Proof.
  induction l as [|x l IH]; simpl; [done|].
  rewrite insert_sorted_perm. by f_equiv.
Qed.

Hypothesis le_total : ∀ x y, le x y = false → le y x = true.

Lemma insert_sorted_Sorted x l :
  Sorted le l → Sorted le (insert_sorted le x l).
Proof.
  induction 1 as [|y l Hl IH Hy]; simpl.
  - by repeat constructor.
  - destruct (le x y) eqn:Hxy.
    + constructor; [by constructor|]. constructor. by rewrite Hxy.
    + constructor; [done|].
      destruct Hy as [|z l' Hz]; simpl.
      * constructor. by rewrite le_total.
      * destruct (le x z); constructor; [by rewrite le_total|done].
Qed.

Lemma sort_by_Sorted l : Sorted le (sort_by le l).
Proof.
  induction l as [|x l IH]; simpl; [constructor|].
  by apply insert_sorted_Sorted.
Qed.
End sort_by.

(** ** Sums of probabilities *)

Lemma sum_probability_app s1 s2 :
  sum_probability (s1 ++ s2) = sum_probability s1 + sum_probability s2.
Proof.
  induction s1 as [|r s1 IH]; simpl; [by rewrite Qcplus_0_l|].
  rewrite IH. ring.
Qed.

Lemma sum_probability_perm s1 s2 :
  s1 ≡ₚ s2 → sum_probability s1 = sum_probability s2.
Proof.
  induction 1 as [|r s1 s2 _ IH|r1 r2 s|s1 s2 s3 _ IH1 _ IH2]; simpl.
  - done.
  - by rewrite IH.
  - ring.
  - by rewrite IH1.
Qed.

Lemma sum_probability_nonneg s : nonneg s → 0 ≤ sum_probability s.
Proof.
  induction 1 as [|r s Hr _ IH]; simpl; [done|].
  by apply Qcplus_nonneg_nonneg.
Qed.

(** Two complementary filters split the sum. *)
Lemma sum_probability_split (P Q : Bin → Prop)
    `{!∀ r, Decision (P r), !∀ r, Decision (Q r)} s :
  (∀ r, P r ↔ ¬ Q r) →
  sum_probability (filter P s) + sum_probability (filter Q s) = sum_probability s.
Proof.
  intros HPQ. induction s as [|r s IH]; simpl; [ring|].
  rewrite !filter_cons. rewrite <-IH.
  destruct (decide (P r)) as [HP|HP], (decide (Q r)) as [HQ|HQ]; simpl.
  - by apply HPQ in HP.
  - ring.
  - ring.
  - destruct HP. by apply HPQ.
Qed.

Lemma lt_le_complement (b : Qc) (r : Bin) : r.1 < b ↔ ¬ b ≤ r.1.
Proof. apply Qclt_nge. Qed.

Lemma gt_le_complement (b : Qc) (r : Bin) : b < r.1 ↔ ¬ r.1 ≤ b.
Proof. apply Qclt_nge. Qed.

(** ** The merge branch *)

Lemma add_lump_strikes b lump s : (add_lump b lump s).*1 = s.*1.
Proof.
  unfold add_lump. rewrite <-list_fmap_compose. apply list_fmap_ext.
  intros _ r _. simpl. by destruct (decide (r.1 = b)).
Qed.

Lemma add_lump_absent b lump s : b ∉ s.*1 → add_lump b lump s = s.
Proof.
  intros Hb. unfold add_lump. rewrite <-(list_fmap_id s) at 2.
  apply list_fmap_ext. intros i r Hr. simpl.
  destruct (decide (r.1 = b)) as [<-|]; [|done].
  destruct Hb. apply list_elem_of_fmap. exists r. split; [done|].
  by eapply list_elem_of_lookup_2.
Qed.

(** With pairwise distinct strikes the merge rewrites exactly one row. *)
Lemma add_lump_present b lump s p :
  NoDup s.*1 → (b, p) ∈ s →
  ∃ s1 s2, s = s1 ++ (b, p) :: s2 ∧
           add_lump b lump s = s1 ++ (b, p + lump) :: s2.
Proof.
  intros Hnd Hin. apply list_elem_of_split in Hin as (s1 & s2 & ->).
  exists s1, s2. split; [done|].
  rewrite fmap_app, fmap_cons in Hnd. simpl in Hnd.
  apply NoDup_app in Hnd as (_ & H1 & [H2 _]%NoDup_cons).
  unfold add_lump. rewrite fmap_app, fmap_cons. simpl.
  rewrite decide_True by done.
  fold (add_lump b lump s1). fold (add_lump b lump s2).
  rewrite !add_lump_absent; [done|done|].
  intros Hb. by apply (H1 b); [|left].
Qed.

Lemma sum_add_lump b lump s :
  NoDup s.*1 → b ∈ s.*1 →
  sum_probability (add_lump b lump s) = sum_probability s + lump.
Proof.
  intros Hnd ([b' p] & -> & Hin)%list_elem_of_fmap. simpl in *.
  destruct (add_lump_present b' lump s p Hnd Hin) as (s1 & s2 & -> & ->).
  rewrite !sum_probability_app. simpl. ring.
Qed.

Lemma add_lump_nonneg b lump s : 0 ≤ lump → nonneg s → nonneg (add_lump b lump s).
Proof.
  intros Hl Hs. unfold nonneg, add_lump. apply Forall_fmap.
  eapply Forall_impl; [done|]. intros r Hr. simpl.
  destruct (decide (r.1 = b)); simpl; [|done].
  by apply Qcplus_nonneg_nonneg.
Qed.

(** ** The two truncation steps *)

Lemma filter_nonneg (P : Bin → Prop) `{!∀ r, Decision (P r)} s :
  nonneg s → nonneg (filter P s).
Proof.
  unfold nonneg. rewrite !Forall_forall. intros Hs r Hr.
  apply Hs. by apply list_elem_of_filter in Hr as [_ ?].
Qed.

Lemma filter_NoDup_strikes (P : Bin → Prop) `{!∀ r, Decision (P r)} s :
  NoDup s.*1 → NoDup (filter P s).*1.
Proof.
  intros Hnd. eapply sublist_NoDup; [done|].
  apply fmap_sublist, sublist_filter.
Qed.

Lemma filter_strikes (P : Qc → Prop) `{!∀ x, Decision (P x)} (s : list Bin) x :
  x ∈ (filter (λ r, P r.1) s).*1 → P x.
Proof.
  intros (r & -> & Hr)%list_elem_of_fmap.
  by apply list_elem_of_filter in Hr as [? _].
Qed.

Lemma handle_lower_bound_preserves b s : step_preserves (handle_lower_bound b) s.
Proof.
  pose proof (sum_probability_split (λ r, r.1 < b) (λ r, b ≤ r.1) s
                (lt_le_complement b)) as Hsplit.
  split; unfold handle_lower_bound.
  - intros Hnd. step_cases; rewrite ?add_lump_strikes;
      try by apply filter_NoDup_strikes.
    rewrite fmap_cons. apply NoDup_cons. split; [done|].
    by apply filter_NoDup_strikes.
  - intros Hs. step_cases; try by apply filter_nonneg.
    + constructor; [by apply Qclt_le_weak|by apply filter_nonneg].
    + apply add_lump_nonneg; [by apply Qclt_le_weak|by apply filter_nonneg].
  - intros Hnd Hs. step_cases.
    + simpl. by rewrite Hsplit.
    + rewrite sum_add_lump; [by rewrite Qcplus_comm|by apply filter_NoDup_strikes|].
      by apply dec_stable.
    + assert (sum_probability (filter (λ r, r.1 < b) s) = 0) as Hz.
      { apply (anti_symm Qcle); [by apply Qcnot_lt_le|].
        by apply sum_probability_nonneg, filter_nonneg. }
      by rewrite <-Hsplit, Hz, Qcplus_0_l.
Qed.

Lemma handle_upper_bound_preserves b s : step_preserves (handle_upper_bound b) s.
Proof.
  pose proof (sum_probability_split (λ r, b < r.1) (λ r, r.1 ≤ b) s
                (gt_le_complement b)) as Hsplit.
  split; unfold handle_upper_bound.
  - intros Hnd. step_cases; rewrite ?add_lump_strikes;
      try by apply filter_NoDup_strikes.
    rewrite fmap_app. apply NoDup_app. split_and!.
    + by apply filter_NoDup_strikes.
    + intros x Hx ->%list_elem_of_singleton. done.
    + apply NoDup_singleton.
  - intros Hs. step_cases; try by apply filter_nonneg.
    + apply Forall_app. split; [by apply filter_nonneg|].
      constructor; [by apply Qclt_le_weak|constructor].
    + apply add_lump_nonneg; [by apply Qclt_le_weak|by apply filter_nonneg].
  - intros Hnd Hs. step_cases.
    + rewrite sum_probability_app. simpl. rewrite <-Hsplit. ring.
    + rewrite sum_add_lump; [by rewrite Qcplus_comm|by apply filter_NoDup_strikes|].
      by apply dec_stable.
    + assert (sum_probability (filter (λ r, b < r.1) s) = 0) as Hz.
      { apply (anti_symm Qcle); [by apply Qcnot_lt_le|].
        by apply sum_probability_nonneg, filter_nonneg. }
      by rewrite <-Hsplit, Hz, Qcplus_0_l.
Qed.

Lemma with_bound_preserves step bound s :
  (∀ b s', step_preserves (step b) s') →
  step_preserves (with_bound step bound) s.
Proof.
  intros Hstep. destruct bound as [b|]; simpl; [apply Hstep|].
  by split.
Qed.

Lemma rebin_truncate lo hi s :
  s ≠ [] → rebin lo hi s = sort_values (truncate lo hi s).
Proof. by destruct s. Qed.

Lemma truncate_preserves lo hi s :
  (NoDup s.*1 → NoDup (truncate lo hi s).*1) ∧
  (NoDup s.*1 → nonneg s →
   sum_probability (truncate lo hi s) = sum_probability s).
Proof.
  pose proof (with_bound_preserves handle_lower_bound lo s
                handle_lower_bound_preserves) as [Hl1 Hl2 Hl3].
  pose proof (with_bound_preserves handle_upper_bound hi
                (with_bound handle_lower_bound lo s)
                handle_upper_bound_preserves) as [Hu1 Hu2 Hu3].
  unfold truncate. split; [by auto|].
  intros Hnd Hs. rewrite Hu3 by auto. auto.
Qed.

(** ** Order of the output *)

Lemma StronglySorted_le_lt (l : list Qc) :
  StronglySorted Qcle l → NoDup l → StronglySorted Qclt l.
Proof.
  induction 1 as [|x l _ IH Hx]; [constructor|].
  intros [Hnot Hnd]%NoDup_cons. constructor.
  - by apply IH.
  - rewrite Forall_forall in Hx |- *. intros y Hy.
    destruct (Qcle_lt_or_eq _ _ (Hx y Hy)) as [?| ->]; done.
Qed.

Lemma sort_values_perm s : sort_values s ≡ₚ s.
Proof. apply sort_by_perm. Qed.

Lemma sort_values_sorted s : StronglySorted Qcle (sort_values s).*1.
Proof.
  apply Sorted_StronglySorted; [apply _|].
  eapply Sorted_fmap; [|apply sort_by_Sorted].
  - intros r r' Hr. by apply bool_decide_unpack in Hr.
  - intros r r' Hr. apply bool_decide_eq_true_2, Qclt_le_weak, Qcnot_le_lt.
    by apply bool_decide_eq_false_1 in Hr.
Qed.

Lemma sort_values_strict s :
  NoDup s.*1 → StronglySorted Qclt (sort_values s).*1.
Proof.
  intros Hnd. apply StronglySorted_le_lt; [apply sort_values_sorted|].
  by rewrite sort_values_perm.
Qed.

Lemma NoDup_strikes_functional (s : list Bin) x p1 p2 :
  NoDup s.*1 → (x, p1) ∈ s → (x, p2) ∈ s → p1 = p2.
Proof.
  induction s as [|[y p] s IH]; intros Hnd H1 H2; [by apply elem_of_nil in H1|].
  rewrite fmap_cons in Hnd. apply NoDup_cons in Hnd as [Hy Hnd].
  apply elem_of_cons in H1 as [H1|H1]; apply elem_of_cons in H2 as [H2|H2].
  - congruence.
  - destruct Hy. simplify_eq. apply list_elem_of_fmap. by exists (y, p2).
  - destruct Hy. simplify_eq. apply list_elem_of_fmap. by exists (y, p1).
  - by apply IH.
Qed.

(** With pairwise distinct strikes the sorted frame is determined by the
    rows alone: any arrangement of them in ascending order is the one
    [sort_values] returns. *)
Lemma sort_values_unique s out :
  NoDup s.*1 → out ≡ₚ s → StronglySorted Qcle out.*1 → out = sort_values s.
Proof.
  intros Hnd Hperm Hsorted.
  assert (∀ l : list Bin, StronglySorted Qcle l.*1 →
            StronglySorted (λ r r', r.1 ≤ r'.1) l) as Hback.
  { induction l as [|r l IH]; [constructor|].
    rewrite fmap_cons. intros [Hr Hl]%StronglySorted_cons.
    constructor; [by apply IH|]. rewrite Forall_fmap in Hr. exact Hr. }
  eapply (StronglySorted_unique_strong (λ r r', r.1 ≤ r'.1)).
  - intros [x1 p1] [x2 p2] H1 H2 Hle1 Hle2. simpl in *.
    assert (x1 = x2) as <- by by apply (anti_symm Qcle).
    f_equal. rewrite Hperm in H1. rewrite sort_values_perm in H2.
    by eapply NoDup_strikes_functional.
  - by apply Hback.
  - apply Hback, sort_values_sorted.
  - by rewrite sort_values_perm.
Qed.

(** ** Bounds that cut nothing, bounds that cut everything *)

Lemma filter_all (P : Bin → Prop) `{!∀ r, Decision (P r)} s :
  Forall P s → filter P s = s.
Proof.
  induction 1 as [|r s Hr _ IH]; [done|].
  by rewrite filter_cons, decide_True, IH.
Qed.

Lemma filter_none_row (P : Row → Prop) `{!∀ r, Decision (P r)} df :
  (∀ r, r ∈ df → ¬ P r) → filter P df = [].
Proof.
  induction df as [|r df IH]; intros Hdf; [done|].
  rewrite filter_cons, decide_False by (apply Hdf; left).
  apply IH. intros r' Hr'. apply Hdf. by right.
Qed.

Lemma filter_none (P : Bin → Prop) `{!∀ r, Decision (P r)} s :
  Forall (λ r, ¬ P r) s → filter P s = [].
Proof.
  induction 1 as [|r s Hr _ IH]; [done|].
  by rewrite filter_cons, decide_False.
Qed.

Lemma handle_lower_bound_vacuous b s :
  Forall (λ r, b < r.1) s → handle_lower_bound b s = s.
Proof.
  intros Hs. unfold handle_lower_bound.
  rewrite (filter_none (λ r, r.1 < b)), (filter_all (λ r, b ≤ r.1)).
  - reflexivity.
  - eapply Forall_impl; [done|]. intros r. apply Qclt_le_weak.
  - eapply Forall_impl; [done|]. intros r Hr. by apply Qcle_not_lt, Qclt_le_weak.
Qed.

Lemma handle_upper_bound_vacuous b s :
  Forall (λ r, r.1 < b) s → handle_upper_bound b s = s.
Proof.
  intros Hs. unfold handle_upper_bound.
  rewrite (filter_none (λ r, b < r.1)), (filter_all (λ r, r.1 ≤ b)).
  - reflexivity.
  - eapply Forall_impl; [done|]. intros r. apply Qclt_le_weak.
  - eapply Forall_impl; [done|]. intros r Hr. by apply Qcle_not_lt, Qclt_le_weak.
Qed.

(** After the lower step no strike is below the bound. *)
Lemma handle_lower_bound_strikes b s :
  Forall (λ r, b ≤ r.1) (handle_lower_bound b s).
Proof.
  assert (Forall (λ x, b ≤ x) (filter (λ r, b ≤ r.1) s).*1) as Hkept.
  { apply Forall_forall. intros x Hx.
    by apply (filter_strikes (λ x, b ≤ x)) in Hx. }
  apply (Forall_fmap fst (λ x, b ≤ x)).
  unfold handle_lower_bound. step_cases; rewrite ?add_lump_strikes; [|done..].
  rewrite fmap_cons. by constructor.
Qed.

(** An upper bound below every strike folds the whole series into one row. *)
Lemma handle_upper_bound_collapse b s :
  Forall (λ r, b < r.1) s → 0 < sum_probability s →
  handle_upper_bound b s = [(b, sum_probability s)].
Proof.
  intros Hs Hpos. unfold handle_upper_bound.
  rewrite (filter_all (λ r, b < r.1)) by done.
  rewrite (filter_none (λ r, r.1 ≤ b)).
  - rewrite decide_True by done. rewrite decide_True; [done|].
    simpl. apply not_elem_of_nil.
  - eapply Forall_impl; [done|]. intros r. apply Qclt_not_le.
Qed.

(** ** The rebinning engine *)

(** C1 (mass conservation).  For a series with pairwise distinct strikes and
    non-negative probabilities, and for any optional lower and upper bound,
    the probabilities of the rebinned series sum to the same total as those
    of the input series. *)
Theorem rebin_mass_conservation lo hi s :
  NoDup s.*1 → nonneg s →
  sum_probability (rebin lo hi s) = sum_probability s.
Proof.
  intros Hnd Hs. destruct (decide (s = [])) as [->|Hne]; [done|].
  rewrite rebin_truncate by done.
  rewrite (sum_probability_perm _ _ (sort_values_perm _)).
  by apply truncate_preserves.
Qed.

Lemma rebin_mass_conservation_witness :
  sum_probability (rebin (Some (q 15 1)) (Some (q 25 1)) ex_series)
  = sum_probability ex_series.
Proof.
  apply (rebin_mass_conservation (Some (q 15 1)) (Some (q 25 1)) ex_series).
  - by_evaluation.
  - by_evaluation.
Defined.

(** What [handle_lower_bound] returns in each of its three cases. *)
Lemma handle_lower_bound_cases b s :
  let lump := sum_probability (filter (λ r, r.1 < b) s) in
  let kept := filter (λ r, b ≤ r.1) s in
  (0 < lump → b ∈ kept.*1 → handle_lower_bound b s = add_lump b lump kept) ∧
  (0 < lump → b ∉ kept.*1 → handle_lower_bound b s = (b, lump) :: kept) ∧
  (¬ 0 < lump → handle_lower_bound b s = kept).
Proof.
  unfold handle_lower_bound. simpl. split_and!; intros; by step_cases.
Qed.

Lemma kept_strike b (s : list Bin) :
  b ∈ (filter (λ r, b ≤ r.1) s).*1 ↔ b ∈ s.*1.
Proof.
  rewrite !list_elem_of_fmap. split; intros (r & -> & Hr).
  - exists r. split; [done|]. by apply list_elem_of_filter in Hr as [_ ?].
  - exists r. split; [done|]. by apply list_elem_of_filter.
Qed.

(** C2 (lower-bound truncation).  With [lump] the sum of the probabilities
    at strikes strictly below the bound and [kept] the rows at or above it:
    no row below the bound remains; when [lump > 0] and a row sits exactly at
    the bound, that one row of [kept] has [lump] added to its probability and
    nothing else changes; when [lump > 0] and no row sits at the bound, the
    row [(bound, lump)] is inserted before [kept]; when [lump = 0] the result
    is [kept], with no boundary row created or modified.  On strikes
    10: 0.1, 20: 0.3, 30: 0.6 the lower bound 20 gives [(20, 0.4), (30, 0.6)]
    and the lower bound 15 gives [(15, 0.1), (20, 0.3), (30, 0.6)]. *)
Theorem lower_bound_truncation b s :
  NoDup s.*1 →
  let lump := sum_probability (filter (λ r, r.1 < b) s) in
  let kept := filter (λ r, b ≤ r.1) s in
  Forall (λ r, ¬ r.1 < b) (handle_lower_bound b s) ∧
  (0 < lump → ∀ p, (b, p) ∈ s →
     ∃ k1 k2, kept = k1 ++ (b, p) :: k2 ∧
              handle_lower_bound b s = k1 ++ (b, p + lump) :: k2) ∧
  (0 < lump → b ∉ s.*1 → handle_lower_bound b s = (b, lump) :: kept) ∧
  (lump = 0 → handle_lower_bound b s = kept) ∧
  rebin (Some (q 20 1)) None ex_series = [(q 20 1, q 4 10); (q 30 1, q 6 10)] ∧
  rebin (Some (q 15 1)) None ex_series
    = [(q 15 1, q 1 10); (q 20 1, q 3 10); (q 30 1, q 6 10)].
Proof.
  intros Hnd lump kept.
  destruct (handle_lower_bound_cases b s) as (Hmerge & Hinsert & Hnone).
  fold lump kept in Hmerge, Hinsert, Hnone. split_and!.
  - eapply Forall_impl; [apply handle_lower_bound_strikes|].
    intros r Hr. by apply Qcle_not_lt.
  - intros Hpos p Hp.
    assert ((b, p) ∈ kept) as Hk.
    { apply list_elem_of_filter. split; [apply Qcle_refl|done]. }
    destruct (add_lump_present b lump kept p) as (k1 & k2 & Hk1 & Hk2);
      [by apply filter_NoDup_strikes|done|].
    exists k1, k2. split; [done|]. rewrite Hmerge; [done..|].
    apply list_elem_of_fmap. by exists (b, p).
  - intros Hpos Hb. apply Hinsert; [done|]. unfold kept. by rewrite kept_strike.
  - intros Hz. apply Hnone. rewrite Hz. apply (irreflexivity Qclt).
  - by_evaluation.
  - by_evaluation.
Qed.

Lemma lower_bound_truncation_witness :
  handle_lower_bound (q 15 1) ex_series
  = (q 15 1, sum_probability (filter (λ r, r.1 < q 15 1) ex_series))
      :: filter (λ r, q 15 1 ≤ r.1) ex_series.
Proof.
  assert (NoDup ex_series.*1) as Hnd by by_evaluation.
  destruct (lower_bound_truncation (q 15 1) ex_series Hnd)
    as (_ & _ & Hinsert & _).
  apply Hinsert; by_evaluation.
Defined.

(** C4 (sort invariant).  For a series with pairwise distinct strikes and
    bounds that are in order when both are supplied, the strikes of the
    rebinned series are strictly increasing, so no strike occurs twice. *)
Theorem rebin_sorted lo hi s :
  NoDup s.*1 → bounds_ordered lo hi →
  StronglySorted Qclt (rebin lo hi s).*1 ∧ NoDup (rebin lo hi s).*1.
Proof.
  intros Hnd _. destruct (decide (s = [])) as [->|Hne].
  { split; constructor. }
  rewrite rebin_truncate by done.
  assert (NoDup (truncate lo hi s).*1) as Ht by by apply truncate_preserves.
  split; [by apply sort_values_strict|].
  by rewrite sort_values_perm.
Qed.

Lemma rebin_sorted_witness :
  StronglySorted Qclt (rebin (Some (q 15 1)) (Some (q 25 1)) ex_series).*1 ∧
  NoDup (rebin (Some (q 15 1)) (Some (q 25 1)) ex_series).*1.
Proof.
  apply (rebin_sorted (Some (q 15 1)) (Some (q 25 1)) ex_series).
  - by_evaluation.
  - unfold bounds_ordered. by_evaluation.
Defined.

Lemma truncate_vacuous lo hi s :
  (∀ b, lo = Some b → Forall (λ r, b < r.1) s) →
  (∀ b, hi = Some b → Forall (λ r, r.1 < b) s) →
  truncate lo hi s = s.
Proof.
  intros Hlo Hhi. unfold truncate.
  destruct lo as [l|]; simpl.
  - rewrite handle_lower_bound_vacuous by auto.
    destruct hi as [h|]; simpl; [|done].
    by rewrite handle_upper_bound_vacuous by auto.
  - destruct hi as [h|]; simpl; [|done].
    by rewrite handle_upper_bound_vacuous by auto.
Qed.

(** C7 (identity under vacuous bounds).  For a series with pairwise distinct
    strikes, when no bound is supplied, or when the lower bound is strictly
    below every strike and the upper bound strictly above every strike, the
    rebinned series is the input series sorted by strike: the same rows
    with the same probabilities, in strictly increasing order of strike; it
    is the input series itself when that one is already in ascending
    order. *)
Theorem rebin_vacuous_bounds lo hi s :
  NoDup s.*1 → vacuous_bounds lo hi s →
  rebin lo hi s = sort_values s ∧
  rebin lo hi s ≡ₚ s ∧
  StronglySorted Qclt (rebin lo hi s).*1 ∧
  (StronglySorted Qcle s.*1 → rebin lo hi s = s).
Proof.
  intros Hnd Hvac.
  assert (rebin lo hi s = sort_values s) as ->.
  { destruct (decide (s = [])) as [->|Hne]; [done|].
    rewrite rebin_truncate by done. f_equal.
    destruct Hvac as [[-> ->]|(l & h & -> & -> & Hs)]; [done|].
    apply truncate_vacuous; intros b [= <-];
      (eapply Forall_impl; [done|]); by intros r []. }
  split_and!; [done|apply sort_values_perm|by apply sort_values_strict|].
  intros Hsorted. symmetry. by apply sort_values_unique.
Qed.

Lemma rebin_vacuous_bounds_witness :
  rebin (Some (q 5 1)) (Some (q 35 1)) ex_series = sort_values ex_series ∧
  rebin (Some (q 5 1)) (Some (q 35 1)) ex_series ≡ₚ ex_series ∧
  StronglySorted Qclt (rebin (Some (q 5 1)) (Some (q 35 1)) ex_series).*1 ∧
  (StronglySorted Qcle ex_series.*1 →
   rebin (Some (q 5 1)) (Some (q 35 1)) ex_series = ex_series).
Proof.
  apply (rebin_vacuous_bounds (Some (q 5 1)) (Some (q 35 1)) ex_series).
  - by_evaluation.
  - right. exists (q 5 1), (q 35 1). split_and!; [done|done|by_evaluation].
Defined.

(** C9 (inverted-bounds collapse).  For a series of distribution rows, that
    is with pairwise distinct strikes and the non-negative probabilities the
    data model gives every row, of strictly positive total mass, and
    supplied bounds with the lower one above the upper one, the rebinned
    series is the single row (upper bound, total input mass). *)
Theorem rebin_inverted_bounds lo hi s :
  NoDup s.*1 → nonneg s → 0 < sum_probability s → hi < lo →
  rebin (Some lo) (Some hi) s = [(hi, sum_probability s)].
Proof.
  intros Hnd Hs Hpos Hinv.
  assert (s ≠ []) as Hne.
  { intros ->. by apply (irreflexivity Qclt 0). }
  rewrite rebin_truncate by done. unfold truncate. simpl.
  destruct (handle_lower_bound_preserves lo s) as [_ _ Hsum].
  rewrite handle_upper_bound_collapse.
  - by rewrite Hsum.
  - eapply Forall_impl; [apply handle_lower_bound_strikes|].
    intros r Hr. by eapply Qclt_le_trans.
  - by rewrite Hsum.
Qed.

Lemma rebin_inverted_bounds_witness :
  rebin (Some (q 25 1)) (Some (q 15 1)) ex_series
  = [(q 15 1, sum_probability ex_series)].
Proof.
  apply (rebin_inverted_bounds (q 25 1) (q 15 1) ex_series); by_evaluation.
Defined.

(** ** The horizon override *)

Lemma override_horizon_fixed row h :
  override_horizon
    {| type := type row; contract_preamble := contract_preamble row;
       prediction_date := prediction_date row;
       horizon_date := h;
       strike := strike row; probability := probability row |}
  = match HORIZON_MAP !! contract_preamble row with
    | Some t => Some t
    | None => h
    end.
Proof. reflexivity. Qed.

(** C5 (idempotent override).  Applying the horizon override twice gives
    the same table as applying it once; row by row, a row whose
    [contract_preamble] is a key of the override map gets the mapped date as
    its [horizon_date], and a row with no matching key is returned as it
    is. *)
Theorem apply_horizon_override_idempotent df :
  apply_horizon_override (apply_horizon_override df) = apply_horizon_override df ∧
  Forall2 (λ row row',
             match HORIZON_MAP !! contract_preamble row with
             | Some t => horizon_date row' = Some t
             | None => row' = row
             end) df (apply_horizon_override df).
Proof.
  unfold apply_horizon_override. split.
  - rewrite <-list_fmap_compose. apply list_fmap_ext. intros _ row _. simpl.
    f_equal. rewrite override_horizon_fixed. unfold override_horizon.
    by destruct (HORIZON_MAP !! contract_preamble row).
  - apply Forall2_fmap_r, Forall_Forall2_diag, Forall_forall.
    intros row _. simpl. unfold override_horizon.
    destruct (HORIZON_MAP !! contract_preamble row); [done|by destruct row].
Qed.

(** C10 (override frame).  The horizon override returns as many rows as it
    is given, in the same order, and the [type] (category),
    [contract_preamble], [prediction_date], [strike] and [probability] of
    every row are those of the input row at the same position. *)
Theorem apply_horizon_override_frame df :
  length (apply_horizon_override df) = length df ∧
  Forall2 (λ row row',
             type row' = type row ∧
             contract_preamble row' = contract_preamble row ∧
             prediction_date row' = prediction_date row ∧
             strike row' = strike row ∧
             probability row' = probability row) df (apply_horizon_override df).
Proof.
  unfold apply_horizon_override. split; [apply length_fmap|].
  apply Forall2_fmap_r, Forall_Forall2_diag, Forall_forall.
  by intros row _.
Qed.

(** ** Fetching distributions *)

Lemma rows_of_unknown_contract table contract :
  unknown_contract table contract ↔ rows_of_contract table contract = [].
Proof.
  unfold unknown_contract, rows_of_contract. split.
  - intros Hc. apply filter_none_row. intros r Hr <-.
    apply Hc. by apply list_elem_of_fmap_2.
  - intros Hf (r & -> & Hr)%list_elem_of_fmap.
    by eapply (filter_nil_not_elem_of _ _ r) in Hf.
Qed.

Section distribution_facts.
Variable to_datetime : string → option datetime.

(** The loop ends with a dict when every text is readable, and then each
    requested text is bound to the rebinned series of its date, whatever
    was bound before; other keys keep their binding. *)
Lemma distribution_loop_spec df lo hi prediction_dates output :
  readable_dates to_datetime prediction_dates →
  ∃ out, distribution_loop to_datetime df lo hi prediction_dates output = Some out ∧
    ∀ date_str,
      out !! date_str =
        if decide (date_str ∈ prediction_dates)
        then (λ d, rebin lo hi (series_at df d)) <$> to_datetime date_str
        else output !! date_str.
Proof.
  intros Hread. revert output.
  induction Hread as [|a rest [d Hd] _ IH]; intros output.
  - exists output. split; [done|]. intros date_str.
    rewrite decide_False; [done|apply not_elem_of_nil].
  - simpl. rewrite Hd. simpl.
    destruct (IH (<[a:=rebin lo hi (series_at df d)]> output)) as (out & -> & Hout).
    exists out. split; [done|]. intros date_str. rewrite Hout.
    destruct (decide (date_str ∈ rest)) as [Hin|Hout'].
    + rewrite decide_True; [done|by right].
    + destruct (decide (date_str = a)) as [->|Hne].
      * rewrite decide_True by left. by rewrite lookup_insert_eq, Hd.
      * rewrite decide_False.
        -- by rewrite lookup_insert_ne.
        -- by intros [?|?]%elem_of_cons.
Qed.

(** A request whose date texts are all readable is answered, and the
    answer binds each text to the rebinned series of its date. *)
Lemma get_distribution_spec table contract prediction_dates lo hi :
  readable_dates to_datetime prediction_dates →
  ∃ D, get_distribution to_datetime table contract prediction_dates lo hi
       = Some D ∧
    strike_labels D
      = sort_by (λ a b, bool_decide (a ≤ b))
          (unique (strike <$> rows_of_contract table contract)) ∧
    ∀ date_str,
      data D !! date_str =
        if decide (date_str ∈ prediction_dates)
        then (λ d, rebin lo hi
                     (series_at (rows_of_contract table contract) d))
               <$> to_datetime date_str
        else None.
Proof.
  intros Hread. unfold get_distribution.
  destruct (distribution_loop_spec (rows_of_contract table contract)
              lo hi prediction_dates ∅ Hread) as (out & -> & Hout).
  eexists. split; [done|]. split; [done|]. simpl.
  intros date_str. rewrite Hout. by rewrite lookup_empty.
Qed.
End distribution_facts.

Lemma distribution_loop_unreadable to_datetime df lo hi prediction_dates output :
  ¬ readable_dates to_datetime prediction_dates →
  distribution_loop to_datetime df lo hi prediction_dates output = None.
Proof.
  revert output. induction prediction_dates as [|a rest IH]; intros output Hbad.
  - destruct Hbad. constructor.
  - simpl. destruct (to_datetime a) as [d|] eqn:Hd; [|done]. simpl.
    apply IH. intros Hrest. apply Hbad. by constructor.
Qed.

Lemma get_distribution_None to_datetime table contract prediction_dates lo hi :
  get_distribution to_datetime table contract prediction_dates lo hi = None ↔
  ¬ readable_dates to_datetime prediction_dates.
Proof.
  split.
  - intros Hnone Hread.
    destruct (get_distribution_spec to_datetime table contract prediction_dates
                lo hi Hread) as (D & HD & _). congruence.
  - intros Hbad. unfold get_distribution.
    by rewrite distribution_loop_unreadable.
Qed.

(** C6 as stated fails for the distribution query: for the contract
    FED-99XXX, which has no row in the sample table, and the date text
    [garbage], which the reader refuses, the query ends in the exception and
    returns no result. *)
Lemma query_surface_total_counterexample :
  unknown_contract ex_table "FED-99XXX" ∧
  clock_to_datetime (midnight 2025 7 4) "garbage" = None ∧
  get_distribution (clock_to_datetime (midnight 2025 7 4)) ex_table "FED-99XXX"
    ["garbage"] None None = None ∧
  handle clock_to_datetime (midnight 2025 7 4) ex_table
    (FetchDistribution "FED-99XXX" ["garbage"] None None) = ServerError.
Proof.
  split_and!; [unfold unknown_contract; by_evaluation|reflexivity..].
Qed.

(** C6, amended (totality on unknown contracts and empty dates).  For a
    contract with no row in the table, the metadata query returns the empty
    result, the prediction-date query returns the empty list for every
    category, and the distribution query, when [pd.to_datetime] reads every
    requested date text, returns no strike label and the empty sequence
    under every requested date.  For any contract, a requested date that has
    no row for it is answered with the empty sequence under that date.  A
    date text that [pd.to_datetime] refuses makes the distribution query
    raise, for known and unknown contracts alike. *)
Theorem query_surface_total to_datetime now table contract :
  (unknown_contract table contract →
     get_contract_info now table contract = None ∧
     (∀ data_type, get_prediction_dates table contract data_type = []) ∧
     (∀ prediction_dates lo hi,
        readable_dates to_datetime prediction_dates →
        ∃ D, get_distribution to_datetime table contract prediction_dates lo hi
             = Some D ∧
             strike_labels D = [] ∧
             ∀ date_str,
               data D !! date_str =
                 if decide (date_str ∈ prediction_dates) then Some [] else None)) ∧
  (∀ prediction_dates lo hi date_str d,
     readable_dates to_datetime prediction_dates →
     date_str ∈ prediction_dates →
     to_datetime date_str = Some d →
     series_at (rows_of_contract table contract) d = [] →
     ∃ D, get_distribution to_datetime table contract prediction_dates lo hi
          = Some D ∧
          data D !! date_str = Some []) ∧
  (∀ prediction_dates lo hi,
     ¬ readable_dates to_datetime prediction_dates →
     get_distribution to_datetime table contract prediction_dates lo hi = None).
Proof.
  split_and!.
  - intros Hunknown. pose proof Hunknown as Hrows.
    apply rows_of_unknown_contract in Hrows. split_and!.
    + unfold get_contract_info. by rewrite Hrows.
    + intros data_type. unfold get_prediction_dates.
      rewrite filter_none_row; [reflexivity|].
      intros r Hr [<- _]. apply Hunknown. by apply list_elem_of_fmap_2.
    + intros prediction_dates lo hi Hread.
      destruct (get_distribution_spec to_datetime table contract
                  prediction_dates lo hi Hread) as (D & HD & Hlabels & Hdata).
      exists D. split; [done|]. rewrite Hlabels, Hrows. split; [done|].
      intros date_str. rewrite Hdata, Hrows.
      destruct (decide (date_str ∈ prediction_dates)) as [Hin|]; [|done].
      unfold readable_dates in Hread. rewrite Forall_forall in Hread.
      by destruct (Hread _ Hin) as [d ->].
  - intros prediction_dates lo hi date_str d Hread Hin Hd Hempty.
    destruct (get_distribution_spec to_datetime table contract
                prediction_dates lo hi Hread) as (D & HD & _ & Hdata).
    exists D. split; [done|].
    rewrite Hdata, decide_True, Hd by done. simpl. by rewrite Hempty.
  - intros prediction_dates lo hi Hbad. by apply get_distribution_None.
Qed.

Lemma query_surface_total_witness :
  get_contract_info (midnight 2025 7 4) ex_table "FED-99XXX" = None ∧
  ∃ D, get_distribution iso_to_datetime ex_table "FED-25JUL"
         ["2025-07-01"; "2025-01-01"] None None = Some D ∧
       data D !! "2025-01-01" = Some [].
Proof.
  split.
  - apply (query_surface_total iso_to_datetime (midnight 2025 7 4)
             ex_table "FED-99XXX").
    unfold unknown_contract. by_evaluation.
  - apply (query_surface_total iso_to_datetime (midnight 2025 7 4)
             ex_table "FED-25JUL") with (d := Some (midnight 2025 1 1)).
    + unfold readable_dates. by_evaluation.
    + by_evaluation.
    + reflexivity.
    + reflexivity.
Defined.

(** ** Contract metadata *)

Lemma elem_of_unique `{EqDecision A} (l : list A) x : x ∈ unique l ↔ x ∈ l.
Proof.
  induction l as [|y l IH]; simpl; [done|].
  rewrite !elem_of_cons, list_elem_of_filter, IH.
  destruct (decide (x = y)); tauto.
Qed.

Lemma dt_max_spec (l : list datetime) :
  match dt_max l with
  | Some m => Some m ∈ l ∧ ∀ x, Some x ∈ l → (x ≤ m)%Z
  | None => ∀ x, Some x ∉ l
  end.
Proof.
  induction l as [|c l IH]; simpl.
  - intros x. apply not_elem_of_nil.
  - destruct c as [x|], (dt_max l) as [m|].
    + destruct IH as [Hm Hmax]. split.
      * destruct (Z.max_spec x m) as [[_ ->]|[_ ->]]; [by right|by left].
      * intros y [[= ->]|Hy]%elem_of_cons; [lia|].
        specialize (Hmax y Hy). lia.
    + split; [by left|].
      intros y [[= ->]|Hy]%elem_of_cons; [lia|]. by apply IH in Hy.
    + destruct IH as [Hm Hmax]. split; [by right|].
      intros y [?|Hy]%elem_of_cons; [done|]. by apply Hmax.
    + intros y [?|Hy]%elem_of_cons; [done|]. by apply IH in Hy.
Qed.

Lemma dt_ltb_Some (a : datetime) (y : Z) :
  dt_ltb a (Some y) ↔ ∃ x, a = Some x ∧ (x < y)%Z.
Proof.
  destruct a as [x|]; simpl.
  - rewrite bool_decide_spec. split; [by exists x|].
    by intros (? & [= <-] & ?).
  - split; [done|]. by intros (? & ? & _).
Qed.

Lemma dt_ltb_spec (a b : datetime) :
  dt_ltb a b ↔ ∃ x y, a = Some x ∧ b = Some y ∧ (x < y)%Z.
Proof.
  destruct b as [y|].
  - rewrite dt_ltb_Some. split.
    + intros (x & -> & Hlt). by exists x, y.
    + intros (x & ? & -> & [= <-] & Hlt). by exists x.
  - destruct a; simpl; (split; [done|]); by intros (? & ? & _ & ? & _).
Qed.

(** The metadata of a contract that has a row: the horizon is that of its
    first row, and the previous horizon is the date of the latest resolved
    horizon of the category. *)
Lemma get_contract_info_previous now table contract first rest :
  rows_of_contract table contract = first :: rest →
  ∃ info prev,
    get_contract_info now table contract = Some info ∧
    info_horizon_date info = date (horizon_date first) ∧
    info_previous_horizon_date info = date prev ∧
    latest_resolved_horizon table first (normalize now) prev.
Proof.
  intros Hrows. unfold get_contract_info. rewrite Hrows.
  set (pairs := (λ r, (contract_preamble r, horizon_date r))
                  <$> filter (λ r, type r = type first) table).
  set (past := filter (λ p : string * datetime, dt_ltb p.2 (Some (normalize now)))
                 (filter (λ p : string * datetime, dt_ltb p.2 (horizon_date first))
                    (sort_by (λ a b, dt_leb_nat_last a.2 b.2) (unique pairs)))).
  assert (∀ h, Some h ∈ past.*2 ↔ resolved_horizon table first (normalize now) h)
    as Hpast.
  { intros h. unfold past, resolved_horizon.
    rewrite list_elem_of_fmap. setoid_rewrite list_elem_of_filter.
    setoid_rewrite list_elem_of_filter. setoid_rewrite sort_by_perm.
    setoid_rewrite elem_of_unique. unfold pairs.
    setoid_rewrite list_elem_of_fmap. setoid_rewrite list_elem_of_filter.
    split.
    - intros ([c h'] & Hh & Htoday & Hlt & r & [= -> ->] & Hty & Hr).
      simpl in *. rewrite <-Hh in *.
      apply dt_ltb_spec in Hlt as (x & h0 & [= <-] & Hh0 & Hlt).
      apply dt_ltb_Some in Htoday as (x & [= <-] & Htoday).
      by exists r, h0.
    - intros (r & h0 & Hr & Hty & Hh & Hh0 & Hlt & Htoday).
      exists (contract_preamble r, Some h). split_and!; [done| | |].
      + apply dt_ltb_Some. by exists h.
      + apply dt_ltb_spec. by exists h, h0.
      + exists r. by rewrite Hh. }
  pose proof (dt_max_spec past.*2) as Hmax.
  eexists _, (dt_max past.*2). split_and!; [done|done| |].
  - simpl. destruct past; [done|done].
  - unfold latest_resolved_horizon.
    destruct (dt_max past.*2) as [m|].
    + destruct Hmax as [Hm Hmax]. split; [by apply Hpast|].
      intros h' Hh'. by apply Hmax, Hpast.
    + intros h Hh. by apply (Hmax h), Hpast.
Qed.

(** In the sample table, seen from the contract FED-25JUL, the resolved
    horizons are among 2025-06-18 and 2025-03-19. *)
Lemma ex_table_resolved first rest today h :
  rows_of_contract ex_table "FED-25JUL" = first :: rest →
  resolved_horizon ex_table first today h →
  h = midnight 2025 6 18 ∨ h = midnight 2025 3 19.
Proof.
  intros [= <- _] (r & h0 & Hr & Hty & Hh & Hh0 & Hlt & _).
  injection Hh0 as <-.
  unfold ex_table in Hr. rewrite !elem_of_cons in Hr.
  destruct Hr as [->|[->|[->|[->|[->|Hr]]]]];
    [| | | | |by apply elem_of_nil in Hr];
    injection Hh as <-; try discriminate Hty;
    vm_compute in Hlt; try discriminate Hlt; auto.
Qed.

(** A known contract has a first row in the table, and that row heads the
    frame of its rows. *)
Lemma known_contract_first_row table contract :
  contract ∈ contract_preamble <$> table →
  ∃ first rest, first_row_of table contract first ∧
                rows_of_contract table contract = first :: rest.
Proof.
  unfold rows_of_contract, first_row_of.
  induction table as [|r table IH]; [by intros ?%elem_of_nil|].
  rewrite fmap_cons, filter_cons.
  destruct (decide (contract_preamble r = contract)) as [Hr|Hr].
  - intros _. exists r, (filter (λ r, contract_preamble r = contract) table).
    split; [|done]. by exists [], table.
  - intros [Heq|Hin]%elem_of_cons; [by destruct Hr|].
    destruct (IH Hin) as (first & rest & (pre & post & -> & Hfirst & Hpre) & Hrows).
    exists first, rest. split; [|done].
    exists (r :: pre), post. split_and!; [done..|]. by constructor.
Qed.

(** C3 (previous-horizon selection).  For a contract that occurs in the
    table, the metadata query returns, as previous horizon date, the date of
    the greatest [horizon_date] among the rows of the contract's category
    whose [horizon_date] is strictly earlier than the contract's own and
    strictly earlier than today, and the empty value when there is no such
    row; the contract's category and horizon are those of the first row of
    the table that carries its [contract_preamble].  In the sample table,
    with same-category horizons 2025-07-30, 2025-06-18 and 2025-03-19, the
    contract with horizon 2025-07-30 gets 2025-06-18 whenever today is after
    2025-06-18. *)
Theorem previous_horizon_selection now table contract :
  contract ∈ contract_preamble <$> table →
  (∃ first info prev,
     first_row_of table contract first ∧
     get_contract_info now table contract = Some info ∧
     info_horizon_date info = date (horizon_date first) ∧
     info_previous_horizon_date info = date prev ∧
     latest_resolved_horizon table first (normalize now) prev) ∧
  (∀ now', (midnight 2025 6 18 < normalize now')%Z →
     ∃ info,
       get_contract_info now' ex_table "FED-25JUL" = Some info ∧
       info_horizon_date info = Some (days_from_civil 2025 7 30) ∧
       info_previous_horizon_date info = Some (days_from_civil 2025 6 18)).
Proof.
  intros Hknown. split.
  { destruct (known_contract_first_row table contract Hknown)
      as (first & rest & Hfirst & Hrows).
    destruct (get_contract_info_previous now table contract first rest Hrows)
      as (info & prev & Hinfo & Hhor & Hprev & Hlatest).
    by exists first, info, prev. }
  clear. intros now Htoday.
  assert (∃ first rest, rows_of_contract ex_table "FED-25JUL" = first :: rest)
    as (first & rest & Hrows) by (eexists _, _; vm_compute; reflexivity).
  destruct (get_contract_info_previous now _ _ _ _ Hrows)
    as (info & prev & -> & Hhorizon & Hprev & Hlatest).
  exists info. split; [done|]. rewrite Hhorizon, Hprev. split.
  { by injection Hrows as <- _. }
  assert (resolved_horizon ex_table first (normalize now) (midnight 2025 6 18))
    as Hjune.
  { injection Hrows as <- _.
    eexists (ex_row "fed_levels" "FED-25JUN" _ _ _ _), _.
    split_and!; [|done|done|done|by vm_compute|done].
    unfold ex_table. rewrite !elem_of_cons. auto. }
  destruct prev as [h|]; simpl in Hlatest.
  - destruct Hlatest as [Hh Hmax].
    apply Hmax in Hjune.
    destruct (ex_table_resolved _ _ _ _ Hrows Hh) as [-> | ->]; [done|].
    by vm_compute in Hjune.
  - by apply Hlatest in Hjune.
Qed.

Lemma previous_horizon_selection_witness :
  ∃ info,
    get_contract_info (midnight 2025 7 4) ex_table "FED-25JUN" = Some info ∧
    info_horizon_date info = Some (days_from_civil 2025 6 18) ∧
    info_previous_horizon_date info = Some (days_from_civil 2025 3 19).
Proof.
  destruct (previous_horizon_selection (midnight 2025 7 4) ex_table "FED-25JUN")
    as [(first & info & prev & Hfirst & Hinfo & Hhor & Hprev & _) _].
  - by_evaluation.
  - exists info. split; [done|].
    vm_compute in Hinfo. by injection Hinfo as <-.
Defined.

(** ** Dependence on the clock *)





(** * Further properties of the backend *)

(** ** The upper-bound step *)

(** After the upper step no strike is above the bound. *)
Lemma handle_upper_bound_strikes b s :
  Forall (λ r, r.1 ≤ b) (handle_upper_bound b s).
Proof.
  assert (Forall (λ x, x ≤ b) (filter (λ r, r.1 ≤ b) s).*1) as Hkept.
  { apply Forall_forall. intros x (r & -> & Hr)%list_elem_of_fmap.
    by apply list_elem_of_filter in Hr as [? _]. }
  apply (Forall_fmap fst (λ x, x ≤ b)).
  unfold handle_upper_bound. step_cases; rewrite ?add_lump_strikes; [|done..].
  rewrite fmap_app. apply Forall_app. split; [done|]. by repeat constructor.
Qed.

Lemma handle_upper_bound_cases b s :
  let lump := sum_probability (filter (λ r, b < r.1) s) in
  let kept := filter (λ r, r.1 ≤ b) s in
  (0 < lump → b ∈ kept.*1 → handle_upper_bound b s = add_lump b lump kept) ∧
  (0 < lump → b ∉ kept.*1 → handle_upper_bound b s = kept ++ [(b, lump)]) ∧
  (¬ 0 < lump → handle_upper_bound b s = kept).
Proof.
  unfold handle_upper_bound. simpl. split_and!; intros; by step_cases.
Qed.

Lemma kept_strike_upper b (s : list Bin) :
  b ∈ (filter (λ r, r.1 ≤ b) s).*1 ↔ b ∈ s.*1.
Proof.
  rewrite !list_elem_of_fmap. split; intros (r & -> & Hr).
  - exists r. split; [done|]. by apply list_elem_of_filter in Hr as [_ ?].
  - exists r. split; [done|]. by apply list_elem_of_filter.
Qed.

(** X1 (upper-bound truncation).  With [lump] the sum of the probabilities
    at strikes strictly above the bound and [kept] the rows at or below it:
    no row above the bound remains; when [lump > 0] and a row sits exactly at
    the bound, that one row of [kept] has [lump] added to its probability;
    when [lump > 0] and no row sits at the bound, the row [(bound, lump)] is
    appended after [kept]; when [lump] is not positive the result is
    [kept]. *)
Theorem upper_bound_truncation b s :
  NoDup s.*1 →
  let lump := sum_probability (filter (λ r, b < r.1) s) in
  let kept := filter (λ r, r.1 ≤ b) s in
  Forall (λ r, ¬ b < r.1) (handle_upper_bound b s) ∧
  (0 < lump → ∀ p, (b, p) ∈ s →
     ∃ k1 k2, kept = k1 ++ (b, p) :: k2 ∧
              handle_upper_bound b s = k1 ++ (b, p + lump) :: k2) ∧
  (0 < lump → b ∉ s.*1 → handle_upper_bound b s = kept ++ [(b, lump)]) ∧
  (¬ 0 < lump → handle_upper_bound b s = kept).
Proof.
  intros Hnd lump kept.
  destruct (handle_upper_bound_cases b s) as (Hmerge & Happend & Hnone).
  fold lump kept in Hmerge, Happend, Hnone. split_and!.
  - eapply Forall_impl; [apply handle_upper_bound_strikes|].
    intros r Hr. by apply Qcle_not_lt.
  - intros Hpos p Hp.
    assert ((b, p) ∈ kept) as Hk.
    { apply list_elem_of_filter. split; [apply Qcle_refl|done]. }
    destruct (add_lump_present b lump kept p) as (k1 & k2 & Hk1 & Hk2);
      [by apply filter_NoDup_strikes|done|].
    exists k1, k2. split; [done|]. rewrite Hmerge; [done..|].
    apply list_elem_of_fmap. by exists (b, p).
  - intros Hpos Hb. apply Happend; [done|]. unfold kept.
    by rewrite kept_strike_upper.
  - done.
Qed.

Lemma upper_bound_truncation_witness :
  handle_upper_bound (q 25 1) ex_series
  = filter (λ r, r.1 ≤ q 25 1) ex_series
    ++ [(q 25 1, sum_probability (filter (λ r, q 25 1 < r.1) ex_series))].
Proof.
  assert (NoDup ex_series.*1) as Hnd by by_evaluation.
  destruct (upper_bound_truncation (q 25 1) ex_series Hnd)
    as (_ & _ & Happend & _).
  apply Happend; by_evaluation.
Defined.

(** ** Where the strikes of the output lie *)

Lemma add_lump_other b lump s r :
  r ∈ s → r.1 ≠ b → r ∈ add_lump b lump s.
Proof.
  intros Hr Hne. unfold add_lump. apply list_elem_of_fmap.
  exists r. by rewrite decide_False.
Qed.

Lemma handle_lower_bound_interior b s r :
  r ∈ s → b < r.1 → r ∈ handle_lower_bound b s.
Proof.
  intros Hr Hlt.
  assert (r ∈ filter (λ r, b ≤ r.1) s) as Hk.
  { apply list_elem_of_filter. split; [by apply Qclt_le_weak|done]. }
  unfold handle_lower_bound. step_cases; [by right| |done].
  apply add_lump_other; [done|]. intros Heq. rewrite Heq in Hlt.
  by apply (irreflexivity Qclt b).
Qed.

Lemma handle_upper_bound_interior b s r :
  r ∈ s → r.1 < b → r ∈ handle_upper_bound b s.
Proof.
  intros Hr Hlt.
  assert (r ∈ filter (λ r, r.1 ≤ b) s) as Hk.
  { apply list_elem_of_filter. split; [by apply Qclt_le_weak|done]. }
  unfold handle_upper_bound. step_cases; [| |done].
  - apply elem_of_app. by left.
  - apply add_lump_other; [done|]. intros Heq. rewrite Heq in Hlt.
    by apply (irreflexivity Qclt b).
Qed.

Lemma handle_lower_bound_origin b s x :
  x ∈ (handle_lower_bound b s).*1 → x ∈ s.*1 ∨ x = b.
Proof.
  assert (x ∈ (filter (λ r, b ≤ r.1) s).*1 → x ∈ s.*1) as Hkept.
  { intros (r & -> & Hr)%list_elem_of_fmap.
    apply list_elem_of_fmap_2. by apply list_elem_of_filter in Hr as [_ ?]. }
  unfold handle_lower_bound. step_cases; rewrite ?add_lump_strikes; auto.
  rewrite fmap_cons. intros [->|Hx]%elem_of_cons; auto.
Qed.

Lemma handle_upper_bound_origin b s x :
  x ∈ (handle_upper_bound b s).*1 → x ∈ s.*1 ∨ x = b.
Proof.
  assert (x ∈ (filter (λ r, r.1 ≤ b) s).*1 → x ∈ s.*1) as Hkept.
  { intros (r & -> & Hr)%list_elem_of_fmap.
    apply list_elem_of_fmap_2. by apply list_elem_of_filter in Hr as [_ ?]. }
  unfold handle_upper_bound. step_cases; rewrite ?add_lump_strikes; auto.
  rewrite fmap_app. intros [Hx|Hx]%elem_of_app; auto.
  apply list_elem_of_singleton in Hx. auto.
Qed.

(** A lower bound already met by the frame survives the upper step when the
    upper bound is not below it. *)
Lemma handle_upper_bound_keeps_lower lo b s :
  lo ≤ b → Forall (λ r, lo ≤ r.1) s → Forall (λ r, lo ≤ r.1) (handle_upper_bound b s).
Proof.
  intros Hle Hs. apply (Forall_fmap fst (λ x, lo ≤ x)).
  apply Forall_forall. intros x [Hx| ->]%handle_upper_bound_origin; [|done].
  apply (Forall_fmap fst (λ x, lo ≤ x)) in Hs.
  rewrite Forall_forall in Hs. by apply Hs.
Qed.

Lemma lower_step_in_bounds lo s :
  Forall (λ r, ∀ l, lo = Some l → l ≤ r.1) (with_bound handle_lower_bound lo s).
Proof.
  destruct lo as [l|]; simpl.
  - eapply Forall_impl; [apply handle_lower_bound_strikes|].
    by intros r Hr ? [= <-].
  - by apply Forall_forall.
Qed.

Lemma truncate_within lo hi s :
  bounds_ordered lo hi → Forall (λ r, in_bounds lo hi r.1) (truncate lo hi s).
Proof.
  intros Hord. unfold truncate, in_bounds.
  destruct hi as [h|]; simpl.
  - pose proof (handle_upper_bound_strikes h (with_bound handle_lower_bound lo s)) as Hup.
    destruct lo as [l|]; simpl in *.
    + assert (Forall (λ r, l ≤ r.1) (handle_upper_bound h (handle_lower_bound l s)))
        as Hlow.
      { apply handle_upper_bound_keeps_lower; [done|].
        apply handle_lower_bound_strikes. }
      rewrite Forall_forall in Hup, Hlow |- *. intros r Hr. split.
      * intros ? [= <-]. by apply Hlow.
      * intros ? [= <-]. by apply Hup.
    + eapply Forall_impl; [exact Hup|]. intros r Hr. split; [done|].
      by intros ? [= <-].
  - eapply Forall_impl; [apply (lower_step_in_bounds lo)|].
    intros r Hr. split; [done|]. done.
Qed.

(** X2 (output within the bounds).  When the supplied bounds are in order,
    every strike of the rebinned series is at or above the lower bound and at
    or below the upper bound, whichever are supplied. *)
Theorem rebin_within_bounds lo hi s :
  bounds_ordered lo hi → Forall (λ r, in_bounds lo hi r.1) (rebin lo hi s).
Proof.
  intros Hord. destruct (decide (s = [])) as [->|Hne]; [constructor|].
  rewrite rebin_truncate by done. rewrite sort_values_perm.
  by apply truncate_within.
Qed.

Lemma rebin_within_bounds_witness :
  Forall (λ r, in_bounds (Some (q 15 1)) (Some (q 25 1)) r.1)
    (rebin (Some (q 15 1)) (Some (q 25 1)) ex_series).
Proof.
  apply (rebin_within_bounds (Some (q 15 1)) (Some (q 25 1)) ex_series).
  unfold bounds_ordered. by_evaluation.
Defined.

Lemma rebin_interior lo hi s r :
  r ∈ s → strictly_inside lo hi r.1 → r ∈ rebin lo hi s.
Proof.
  intros Hr [Hlo Hhi].
  assert (s ≠ []) as Hne by (intros ->; by apply elem_of_nil in Hr).
  rewrite rebin_truncate by done. rewrite sort_values_perm. unfold truncate.
  assert (r ∈ with_bound handle_lower_bound lo s) as HL.
  { destruct lo as [l|]; simpl; [|done].
    apply handle_lower_bound_interior; auto. }
  destruct hi as [h|]; simpl; [|done].
  apply handle_upper_bound_interior; auto.
Qed.

Lemma rebin_origin lo hi s x :
  x ∈ (rebin lo hi s).*1 → x ∈ s.*1 ∨ lo = Some x ∨ hi = Some x.
Proof.
  intros Hx. destruct (decide (s = [])) as [->|Hne].
  { by apply elem_of_nil in Hx. }
  rewrite rebin_truncate in Hx by done. rewrite sort_values_perm in Hx.
  unfold truncate in Hx.
  assert (∀ y, y ∈ (with_bound handle_lower_bound lo s).*1 →
               y ∈ s.*1 ∨ lo = Some y) as HL.
  { intros y Hy. destruct lo as [l|]; simpl in Hy; [|by left].
    apply handle_lower_bound_origin in Hy as [?| ->]; auto. }
  destruct hi as [h|]; simpl in Hx.
  - apply handle_upper_bound_origin in Hx as [Hx| ->]; [|auto].
    destruct (HL x Hx); auto.
  - destruct (HL x Hx); auto.
Qed.

(** X3 (support of the output).  A row whose strike lies strictly inside the
    supplied bounds is returned as it is, with its probability; and every
    strike of the rebinned series is a strike of the input series or one of
    the supplied bounds. *)
Theorem rebin_support lo hi s :
  (∀ r, r ∈ s → strictly_inside lo hi r.1 → r ∈ rebin lo hi s) ∧
  (∀ x, x ∈ (rebin lo hi s).*1 → x ∈ s.*1 ∨ lo = Some x ∨ hi = Some x).
Proof.
  split; [apply rebin_interior|apply rebin_origin].
Qed.

Lemma rebin_support_witness :
  (q 20 1, q 3 10) ∈ rebin (Some (q 15 1)) (Some (q 25 1)) ex_series.
Proof.
  destruct (rebin_support (Some (q 15 1)) (Some (q 25 1)) ex_series) as [Hin _].
  apply Hin; [by_evaluation|]. unfold strictly_inside.
  split; intros ? [= <-]; by_evaluation.
Defined.

(** X4 (non-negativity is kept).  If every probability of the input series
    is non-negative, so is every probability of the rebinned series. *)
Theorem rebin_nonneg lo hi s : nonneg s → nonneg (rebin lo hi s).
Proof.
  intros Hs. destruct (decide (s = [])) as [->|Hne]; [constructor|].
  rewrite rebin_truncate by done. unfold nonneg. rewrite sort_values_perm.
  unfold truncate.
  apply (with_bound_preserves handle_upper_bound hi _ handle_upper_bound_preserves).
  by apply (with_bound_preserves handle_lower_bound lo _ handle_lower_bound_preserves).
Qed.

Lemma rebin_nonneg_witness :
  nonneg (rebin (Some (q 15 1)) (Some (q 25 1)) ex_series).
Proof.
  apply (rebin_nonneg (Some (q 15 1)) (Some (q 25 1)) ex_series).
  by_evaluation.
Defined.

(** ** Rebinning twice *)

Lemma handle_lower_bound_noop b s :
  Forall (λ r, b ≤ r.1) s → handle_lower_bound b s = s.
Proof.
  intros Hs. unfold handle_lower_bound.
  rewrite (filter_none (λ r, r.1 < b)), (filter_all (λ r, b ≤ r.1)).
  - reflexivity.
  - done.
  - eapply Forall_impl; [done|]. intros r Hr. by apply Qcle_not_lt.
Qed.

Lemma handle_upper_bound_noop b s :
  Forall (λ r, r.1 ≤ b) s → handle_upper_bound b s = s.
Proof.
  intros Hs. unfold handle_upper_bound.
  rewrite (filter_none (λ r, b < r.1)), (filter_all (λ r, r.1 ≤ b)).
  - reflexivity.
  - done.
  - eapply Forall_impl; [done|]. intros r Hr. by apply Qcle_not_lt.
Qed.

Lemma truncate_noop lo hi s :
  Forall (λ r, in_bounds lo hi r.1) s → truncate lo hi s = s.
Proof.
  intros Hs. unfold truncate.
  assert (with_bound handle_lower_bound lo s = s) as ->.
  { destruct lo as [l|]; simpl; [|done].
    apply handle_lower_bound_noop. eapply Forall_impl; [done|].
    intros r [Hr _]. by apply Hr. }
  destruct hi as [h|]; simpl; [|done].
  apply handle_upper_bound_noop. eapply Forall_impl; [done|].
  intros r [_ Hr]. by apply Hr.
Qed.

(** With the bounds inverted the truncation leaves nothing, or one row at the
    upper bound with a positive probability. *)
Lemma truncate_inverted lo hi s :
  hi < lo →
  truncate (Some lo) (Some hi) s = [] ∨
  ∃ m, 0 < m ∧ truncate (Some lo) (Some hi) s = [(hi, m)].
Proof.
  intros Hinv. unfold truncate. simpl.
  set (L := handle_lower_bound lo s).
  assert (Forall (λ r, hi < r.1) L) as HL.
  { eapply Forall_impl; [apply handle_lower_bound_strikes|].
    intros r Hr. by eapply Qclt_le_trans. }
  destruct (decide (0 < sum_probability L)) as [Hpos|Hnpos].
  - right. exists (sum_probability L). split; [done|].
    by apply handle_upper_bound_collapse.
  - left. unfold handle_upper_bound.
    rewrite (filter_all (λ r, hi < r.1)) by done.
    rewrite decide_False by done.
    apply filter_none. eapply Forall_impl; [done|].
    intros r. apply Qclt_not_le.
Qed.

(** X5 (rebinning is idempotent).  Rebinning an already rebinned series with
    the same bounds returns it unchanged, for every series with pairwise
    distinct strikes and every choice of bounds, in order or not. *)
Theorem rebin_idempotent lo hi s :
  NoDup s.*1 → rebin lo hi (rebin lo hi s) = rebin lo hi s.
Proof.
  intros Hnd. destruct (decide (s = [])) as [->|Hne]; [done|].
  rewrite (rebin_truncate lo hi s) by done.
  assert (NoDup (truncate lo hi s).*1) as Hndt by by apply truncate_preserves.
  set (t := truncate lo hi s) in *.
  destruct (decide (sort_values t = [])) as [->|Hne']; [done|].
  rewrite rebin_truncate by done.
  assert (bounds_ordered lo hi ∨ ∃ l h, lo = Some l ∧ hi = Some h ∧ h < l)
    as [Hord|(l & h & -> & -> & Hinv)].
  { destruct lo as [l|], hi as [h|]; simpl; auto.
    destruct (decide (l ≤ h)); [by left|right].
    exists l, h. split_and!; [done..|]. by apply Qcnot_le_lt. }
  - rewrite truncate_noop.
    + symmetry. apply sort_values_unique; [|done|apply sort_values_sorted].
      by rewrite sort_values_perm.
    + rewrite sort_values_perm. by apply truncate_within.
  - destruct (truncate_inverted l h s Hinv) as [Ht|(m & Hm & Ht)];
      fold t in Ht; rewrite Ht in *; [done|].
    change (sort_values [(h, m)]) with [(h, m)].
    unfold truncate. simpl.
    assert (handle_lower_bound l [(h, m)] = [(l, m + 0)]) as ->.
    { unfold handle_lower_bound.
      rewrite (filter_all (λ r, r.1 < l)) by (by repeat constructor).
      rewrite (filter_none (λ r, l ≤ r.1))
        by (repeat constructor; by apply Qclt_not_le).
      rewrite decide_True by (simpl; by rewrite Qcplus_0_r).
      reflexivity. }
    rewrite handle_upper_bound_collapse.
    + simpl. do 2 f_equal. ring.
    + by repeat constructor.
    + simpl. by rewrite !Qcplus_0_r.
Qed.

Lemma rebin_idempotent_witness :
  rebin (Some (q 15 1)) (Some (q 25 1))
    (rebin (Some (q 15 1)) (Some (q 25 1)) ex_series)
  = rebin (Some (q 15 1)) (Some (q 25 1)) ex_series.
Proof.
  apply (rebin_idempotent (Some (q 15 1)) (Some (q 25 1)) ex_series).
  by_evaluation.
Defined.

(** ** Mass without the uniqueness of strikes *)

Lemma sum_add_lump_mono b lump s :
  0 ≤ lump → sum_probability s ≤ sum_probability (add_lump b lump s).
Proof.
  intros Hl. induction s as [|r s IH]; simpl; [done|].
  destruct (decide (r.1 = b)); simpl.
  - apply Qcplus_le_compat; [|done].
    rewrite <-(Qcplus_0_r r.2) at 1. by apply Qcplus_le_mono_l.
  - by apply Qcplus_le_mono_l.
Qed.

Lemma sum_add_lump_ge b lump s :
  0 ≤ lump → b ∈ s.*1 →
  sum_probability s + lump ≤ sum_probability (add_lump b lump s).
Proof.
  intros Hl. induction s as [|r s IH]; simpl.
  - by intros ?%elem_of_nil.
  - intros Hb. destruct (decide (r.1 = b)) as [Heq|Hne]; simpl.
    + replace (r.2 + sum_probability s + lump)
        with (r.2 + lump + sum_probability s) by ring.
      apply Qcplus_le_mono_l. by apply sum_add_lump_mono.
    + apply elem_of_cons in Hb as [Hb|Hb]; [by destruct Hne|].
      rewrite <-Qcplus_assoc. apply Qcplus_le_mono_l. by apply IH.
Qed.

Lemma handle_lower_bound_mass b s :
  nonneg s → sum_probability s ≤ sum_probability (handle_lower_bound b s).
Proof.
  intros Hs.
  pose proof (sum_probability_split (λ r, r.1 < b) (λ r, b ≤ r.1) s
                (lt_le_complement b)) as Hsplit.
  unfold handle_lower_bound. step_cases.
  - simpl. by rewrite Hsplit.
  - rewrite <-Hsplit, Qcplus_comm.
    apply sum_add_lump_ge; [by apply Qclt_le_weak|by apply dec_stable].
  - assert (sum_probability (filter (λ r, r.1 < b) s) = 0) as Hz.
    { apply (anti_symm Qcle); [by apply Qcnot_lt_le|].
      by apply sum_probability_nonneg, filter_nonneg. }
    by rewrite <-Hsplit, Hz, Qcplus_0_l.
Qed.

Lemma handle_upper_bound_mass b s :
  nonneg s → sum_probability s ≤ sum_probability (handle_upper_bound b s).
Proof.
  intros Hs.
  pose proof (sum_probability_split (λ r, b < r.1) (λ r, r.1 ≤ b) s
                (gt_le_complement b)) as Hsplit.
  unfold handle_upper_bound. step_cases.
  - rewrite sum_probability_app. simpl. rewrite <-Hsplit, Qcplus_0_r.
    by rewrite Qcplus_comm.
  - rewrite <-Hsplit, Qcplus_comm.
    apply sum_add_lump_ge; [by apply Qclt_le_weak|by apply dec_stable].
  - assert (sum_probability (filter (λ r, b < r.1) s) = 0) as Hz.
    { apply (anti_symm Qcle); [by apply Qcnot_lt_le|].
      by apply sum_probability_nonneg, filter_nonneg. }
    by rewrite <-Hsplit, Hz, Qcplus_0_l.
Qed.

(** X6 (no mass is lost).  For non-negative probabilities, whether or not a
    strike is repeated, the rebinned series sums to at least the total of the
    input series; a repeated strike at a bound receives the lump in each of
    its rows, so the total can grow. *)
Theorem rebin_mass_not_lost lo hi s :
  nonneg s → sum_probability s ≤ sum_probability (rebin lo hi s).
Proof.
  intros Hs. destruct (decide (s = [])) as [->|Hne]; [done|].
  rewrite rebin_truncate by done.
  rewrite (sum_probability_perm _ _ (sort_values_perm _)). unfold truncate.
  assert (nonneg (with_bound handle_lower_bound lo s) ∧
          sum_probability s ≤ sum_probability (with_bound handle_lower_bound lo s))
    as [HL Hle].
  { destruct lo as [l|]; simpl; [|done]. split.
    - by apply handle_lower_bound_preserves.
    - by apply handle_lower_bound_mass. }
  destruct hi as [h|]; simpl; [|done].
  etrans; [exact Hle|]. by apply handle_upper_bound_mass.
Qed.

Lemma rebin_mass_not_lost_witness :
  sum_probability dup_series ≤ sum_probability (rebin (Some (q 20 1)) None dup_series) ∧
  sum_probability dup_series = q 7 10 ∧
  sum_probability (rebin (Some (q 20 1)) None dup_series) = q 8 10.
Proof.
  split.
  - apply (rebin_mass_not_lost (Some (q 20 1)) None dup_series). by_evaluation.
  - split; by_evaluation.
Defined.

(** ** Fetching distributions: errors, keys and labels *)

(** X7 (when fetching a distribution fails).  The distribution query raises
    exactly when [pd.to_datetime] refuses one of the requested date texts;
    the contract, the table and the bounds play no part. *)
Theorem get_distribution_error to_datetime table contract prediction_dates lo hi :
  get_distribution to_datetime table contract prediction_dates lo hi = None ↔
  ∃ date_str, date_str ∈ prediction_dates ∧ to_datetime date_str = None.
Proof.
  rewrite get_distribution_None. unfold readable_dates.
  rewrite <-Exists_Forall_neg, Exists_exists.
  - split; intros (x & Hx & Hnone); exists x; (split; [done|]).
    + destruct (to_datetime x); [|done]. destruct Hnone. by eexists.
    + rewrite Hnone. by intros [? ?].
  - intros x. destruct (to_datetime x); [left; by eexists|right; by intros [? ?]].
Qed.

(** X8 (the answer depends on the set of dates).  Two requests for the same
    contract and bounds whose date lists have the same members, in whatever
    order and with whatever repetitions, get the same answer: the same
    labels and the same series under the same date texts (the order of the
    keys of the dict aside), or both fail. *)
Theorem get_distribution_dates_as_set to_datetime table contract ds1 ds2 lo hi :
  (∀ date_str, date_str ∈ ds1 ↔ date_str ∈ ds2) →
  get_distribution to_datetime table contract ds1 lo hi
  = get_distribution to_datetime table contract ds2 lo hi.
Proof.
  intros Hsame.
  assert (readable_dates to_datetime ds1 ↔ readable_dates to_datetime ds2) as Hread.
  { unfold readable_dates. rewrite !Forall_forall. by setoid_rewrite Hsame. }
  destruct (decide (Forall (λ date_str, is_Some (to_datetime date_str)) ds1))
    as [H1|H1].
  - destruct (get_distribution_spec to_datetime table contract ds1 lo hi H1)
      as ([l1 d1] & -> & Hl1 & Hd1).
    destruct (get_distribution_spec to_datetime table contract ds2 lo hi
                (proj1 Hread H1)) as ([l2 d2] & -> & Hl2 & Hd2).
    simpl in *. f_equal. f_equal; [congruence|].
    apply map_eq. intros date_str. rewrite Hd1, Hd2.
    destruct (decide (date_str ∈ ds1)) as [Hin|Hout].
    + by rewrite decide_True by by apply Hsame.
    + by rewrite decide_False by by rewrite <-Hsame.
  - rewrite (proj2 (get_distribution_None _ _ _ ds1 _ _)) by done.
    rewrite (proj2 (get_distribution_None _ _ _ ds2 _ _)); [done|].
    by rewrite <-Hread.
Qed.

Lemma get_distribution_dates_as_set_witness :
  get_distribution iso_to_datetime ex_table "FED-25JUL"
    ["2025-07-01"; "2025-06-01"] (Some (q 44 10)) None
  = get_distribution iso_to_datetime ex_table "FED-25JUL"
      ["2025-06-01"; "2025-07-01"; "2025-06-01"] (Some (q 44 10)) None.
Proof.
  apply (get_distribution_dates_as_set iso_to_datetime ex_table "FED-25JUL"
           ["2025-07-01"; "2025-06-01"]
           ["2025-06-01"; "2025-07-01"; "2025-06-01"]).
  intros date_str. rewrite !elem_of_cons, !elem_of_nil. tauto.
Defined.

Lemma NoDup_unique `{EqDecision A} (l : list A) : NoDup (unique l).
Proof.
  induction l as [|x l IH]; simpl; [constructor|].
  apply NoDup_cons. split.
  - intros [Hne _]%list_elem_of_filter. by destruct Hne.
  - by apply NoDup_filter.
Qed.

Lemma sort_strikes_strict (l : list Qc) :
  NoDup l → StronglySorted Qclt (sort_by (λ a b, bool_decide (a ≤ b)) l).
Proof.
  intros Hnd. apply StronglySorted_le_lt; [|by rewrite sort_by_perm].
  apply Sorted_StronglySorted; [apply _|].
  assert (Sorted (λ a b : Qc, bool_decide (a ≤ b))
            (sort_by (λ a b, bool_decide (a ≤ b)) l)) as Hs.
  { apply sort_by_Sorted. intros a b Hab.
    apply bool_decide_eq_true_2, Qclt_le_weak, Qcnot_le_lt.
    by apply bool_decide_eq_false_1 in Hab. }
  induction Hs as [|a l' _ IH Ha]; constructor; [done|].
  destruct Ha; constructor. by apply bool_decide_unpack in H.
Qed.

(** X9 (strike labels).  A distribution query with readable date texts is
    answered, and lists as [strike_labels] the strikes of the contract's
    rows, over all its prediction dates: each of them once, in strictly
    increasing order, whatever dates and bounds are requested. *)
Theorem get_distribution_strike_labels
    to_datetime table contract prediction_dates lo hi :
  readable_dates to_datetime prediction_dates →
  ∃ D, get_distribution to_datetime table contract prediction_dates lo hi = Some D ∧
       StronglySorted Qclt (strike_labels D) ∧
       ∀ x, x ∈ strike_labels D ↔
            ∃ r, r ∈ table ∧ contract_preamble r = contract ∧ strike r = x.
Proof.
  intros Hread.
  destruct (get_distribution_spec to_datetime table contract prediction_dates
              lo hi Hread) as (D & HD & Hlabels & _).
  exists D. split; [done|]. rewrite Hlabels. split.
  - apply sort_strikes_strict, NoDup_unique.
  - intros x. rewrite sort_by_perm, elem_of_unique, list_elem_of_fmap.
    unfold rows_of_contract. setoid_rewrite list_elem_of_filter.
    split; intros (r & ? & ? & ?); exists r; split_and!; done.
Qed.

Lemma get_distribution_strike_labels_witness :
  ∃ D, get_distribution iso_to_datetime ex_table "FED-25JUL" ["2025-07-01"]
         (Some (q 44 10)) None = Some D ∧
       StronglySorted Qclt (strike_labels D).
Proof.
  destruct (get_distribution_strike_labels iso_to_datetime ex_table "FED-25JUL"
              ["2025-07-01"] (Some (q 44 10)) None) as (D & HD & Hsorted & _).
  - unfold readable_dates. by_evaluation.
  - by exists D.
Defined.

Lemma series_at_strikes df d x :
  x ∈ (series_at df d).*1 → x ∈ strike <$> df.
Proof.
  unfold series_at. rewrite <-list_fmap_compose.
  intros (r & -> & Hr)%list_elem_of_fmap. simpl.
  apply list_elem_of_fmap_2. by apply list_elem_of_filter in Hr as [_ ?].
Qed.

(** X10 (labels cover the series).  In the answer to a distribution query
    with readable date texts, every strike of every returned series is one
    of the [strike_labels] or one of the supplied bounds; a bound that is not
    a strike of the contract can so appear in a series without being a
    label. *)
Theorem get_distribution_series_strikes
    to_datetime table contract prediction_dates lo hi :
  readable_dates to_datetime prediction_dates →
  ∃ D, get_distribution to_datetime table contract prediction_dates lo hi = Some D ∧
       ∀ date_str series x,
         data D !! date_str = Some series → x ∈ series.*1 →
         x ∈ strike_labels D ∨ lo = Some x ∨ hi = Some x.
Proof.
  intros Hread.
  destruct (get_distribution_spec to_datetime table contract prediction_dates
              lo hi Hread) as (D & HD & Hlabels & Hdata).
  exists D. split; [done|]. intros date_str series x Hseries Hx.
  rewrite Hdata in Hseries.
  destruct (decide (date_str ∈ prediction_dates)); [|done].
  destruct (to_datetime date_str) as [d|]; [|done].
  injection Hseries as <-.
  apply rebin_origin in Hx as [Hx|Hx]; [left|by right].
  rewrite Hlabels, sort_by_perm, elem_of_unique.
  by eapply series_at_strikes.
Qed.

Lemma get_distribution_series_strikes_witness :
  ∃ D, get_distribution iso_to_datetime ex_table "FED-25JUL" ["2025-07-01"]
         (Some (q 44 10)) None = Some D ∧
       data D !! "2025-07-01" = Some [(q 44 10, q 8 10); (q 45 10, q 2 10)] ∧
       q 44 10 ∉ strike_labels D.
Proof.
  destruct (get_distribution_series_strikes iso_to_datetime ex_table "FED-25JUL"
              ["2025-07-01"] (Some (q 44 10)) None) as (D & HD & _).
  - unfold readable_dates. by_evaluation.
  - exists D. split; [done|].
    vm_compute in HD. injection HD as <-. split; by_evaluation.
Defined.

(** ** Listing contracts *)

Lemma dt_leb_nat_last_total (a b : datetime) :
  dt_leb_nat_last a b = false → dt_leb_nat_last b a = true.
Proof.
  destruct a as [x|], b as [y|]; simpl; try done.
  intros Hxy%bool_decide_eq_false_1. apply bool_decide_eq_true_2. lia.
Qed.

Lemma Sorted_fmap_inv {A B} (f : A → B) (R : relation B) (l : list A) :
  Sorted R (f <$> l) → Sorted (λ a b, R (f a) (f b)) l.
Proof.
  induction l as [|a l IH]; [constructor|].
  rewrite fmap_cons. intros [Hl Ha]%Sorted_inv. constructor; [by apply IH|].
  destruct l; [constructor|]. rewrite fmap_cons in Ha.
  constructor. by apply HdRel_inv in Ha.
Qed.

Lemma all_some_pairs (P : list (string * datetime)) :
  Forall (λ p, is_Some p.2) P →
  ∃ pairs : list (string * Z), P = (λ p, (p.1, Some p.2)) <$> pairs.
Proof.
  induction 1 as [|[c d] P [h Hh] _ (pairs & ->)]; [by exists []|].
  simpl in Hh. subst d. by exists ((c, h) :: pairs).
Qed.

Lemma get_contracts_pairs table data_type :
  ∃ pairs : list (string * Z),
    get_contracts table data_type = pairs.*1 ∧
    NoDup pairs ∧
    Sorted (λ a b, (b.2 ≤ a.2)%Z) pairs ∧
    ∀ c h, (c, h) ∈ pairs ↔
           ∃ r, r ∈ table ∧ in_category data_type r ∧
                contract_preamble r = c ∧ horizon_date r = Some h.
Proof.
  unfold get_contracts.
  set (df := match data_type with
             | Some t => if bool_decide (t = "") then table
                         else filter (λ r, type r = t) table
             | None => table
             end).
  assert (∀ r, r ∈ df ↔ r ∈ table ∧ in_category data_type r) as Hdf.
  { intros r. unfold df, in_category. destruct data_type as [t|]; [|tauto].
    case_bool_decide as Ht.
    - split; [auto|tauto].
    - rewrite list_elem_of_filter. split; [tauto|].
      intros [? [?|?]]; [done|tauto]. }
  set (P := sort_by (λ a b : string * datetime, dt_leb_nat_last b.2 a.2)
              (unique (filter (λ p : string * datetime, is_Some p.2)
                         ((λ r, (contract_preamble r, horizon_date r)) <$> df)))).
  assert (∀ p, p ∈ P ↔ is_Some p.2 ∧
                        ∃ r, r ∈ df ∧ p = (contract_preamble r, horizon_date r))
    as HP.
  { intros p. unfold P.
    rewrite sort_by_perm, elem_of_unique, list_elem_of_filter, list_elem_of_fmap.
    split; intros [? (r & ? & ?)]; (split; [done|]); by exists r. }
  destruct (all_some_pairs P) as (pairs & HPpairs).
  { apply Forall_forall. intros p Hp. by apply HP in Hp as [? _]. }
  exists pairs. split_and!.
  - rewrite HPpairs, <-!list_fmap_compose. by apply list_fmap_ext.
  - apply (NoDup_fmap_1 (λ p : string * Z, (p.1, Some p.2))).
    rewrite <-HPpairs. unfold P. rewrite sort_by_perm. apply NoDup_unique.
  - assert (Sorted (λ a b : string * datetime, dt_leb_nat_last b.2 a.2) P) as HS.
    { apply sort_by_Sorted. intros a b. apply dt_leb_nat_last_total. }
    rewrite HPpairs in HS. apply Sorted_fmap_inv in HS.
    clear -HS. induction HS as [|a l _ IH Ha]; constructor; [done|].
    destruct Ha as [|b l Hab]; constructor. simpl in Hab.
    by apply bool_decide_unpack in Hab.
  - intros c h.
    assert ((c, h) ∈ pairs ↔ (c, Some h) ∈ P) as ->.
    { rewrite HPpairs, list_elem_of_fmap. split.
      - intros Hin. by exists (c, h).
      - intros ([c' h'] & [= -> ->] & Hin). done. }
    rewrite HP. simpl. setoid_rewrite Hdf. split.
    + intros [_ (r & [Hr Hcat] & [= -> Hh])]. by exists r.
    + intros (r & Hr & Hcat & <- & Hh). split; [by eexists|].
      exists r. by rewrite Hh.
Qed.

(** X11 (listing contracts).  The contract list is the list of names of the
    distinct (contract, horizon) pairs of the rows that pass the category
    filter and have a horizon, each pair once, in descending order of
    horizon; an absent or empty category filters nothing. *)
Theorem get_contracts_spec table data_type :
  ∃ pairs : list (string * Z),
    get_contracts table data_type = pairs.*1 ∧
    NoDup pairs ∧
    Sorted (λ a b, (b.2 ≤ a.2)%Z) pairs ∧
    ∀ c h, (c, h) ∈ pairs ↔
           ∃ r, r ∈ table ∧ in_category data_type r ∧
                contract_preamble r = c ∧ horizon_date r = Some h.
Proof. apply get_contracts_pairs. Qed.

(** X18 (no contract is listed twice).  When the rows of each contract agree
    on their horizon, the contract list names every contract at most once;
    a contract listed twice has rows with different horizons. *)
Theorem get_contracts_NoDup table data_type :
  (∀ r1 r2, r1 ∈ table → r2 ∈ table →
            contract_preamble r1 = contract_preamble r2 →
            horizon_date r1 = horizon_date r2) →
  NoDup (get_contracts table data_type).
Proof.
  intros Hone.
  destruct (get_contracts_pairs table data_type) as (pairs & -> & Hnd & _ & Hmem).
  apply NoDup_fmap_fst; [|done].
  intros c h1 h2 (r1 & Hr1 & _ & Hc1 & Hh1)%Hmem (r2 & Hr2 & _ & Hc2 & Hh2)%Hmem.
  assert (Some h1 = Some h2) as [= ->]; [|done].
  rewrite <-Hh1, <-Hh2. apply Hone; [done..|]. by rewrite Hc1, Hc2.
Qed.

Lemma get_contracts_NoDup_witness : NoDup (get_contracts ex_table None).
Proof.
  apply (get_contracts_NoDup ex_table None).
  intros r1 r2 Hr1 Hr2. unfold ex_table in Hr1, Hr2.
  rewrite !elem_of_cons, elem_of_nil in Hr1, Hr2.
  destruct Hr1 as [->|[->|[->|[->|[->|[]]]]]];
    destruct Hr2 as [->|[->|[->|[->|[->|[]]]]]];
    simpl; intros Hc; try reflexivity; discriminate Hc.
Defined.

(** ** The assembled table *)

Lemma filter_filter_same `{EqDecision A} (a : A) (l : list A) :
  filter (λ y, y ≠ a) (filter (λ y, y ≠ a) l) = filter (λ y, y ≠ a) l.
Proof.
  induction l as [|x l IH]; [done|].
  rewrite (filter_cons _ x l). destruct (decide (x ≠ a)); [|done].
  by rewrite filter_cons, decide_True, IH.
Qed.

Lemma unique_cons `{EqDecision A} (x : A) (l : list A) :
  unique (x :: l) = x :: filter (λ y, y ≠ x) (unique l).
Proof. reflexivity. Qed.

(** Leading copies of one value collapse into its first occurrence. *)
Lemma unique_replicate_app `{EqDecision A} (a : A) (n : nat) (l : list A) :
  unique (replicate (S n) a ++ l) = a :: filter (λ y, y ≠ a) (unique l).
Proof.
  induction n as [|n IH]; [done|].
  change (replicate (S (S n)) a ++ l) with (a :: (replicate (S n) a ++ l)).
  rewrite unique_cons, IH.
  rewrite filter_cons, decide_False by (by intros []).
  by rewrite filter_filter_same.
Qed.

Lemma load_and_process_csv_types file data_type :
  type <$> load_and_process_csv file data_type = replicate (length file) data_type.
Proof.
  unfold load_and_process_csv. induction file as [|c file IH]; [done|].
  simpl. by f_equal.
Qed.

Lemma apply_horizon_override_types df :
  type <$> apply_horizon_override df = type <$> df.
Proof.
  unfold apply_horizon_override. rewrite <-list_fmap_compose.
  by apply list_fmap_ext.
Qed.

(** X12 (categories of the assembled table).  On the table built from the
    two files, the category list is [fed_levels] if the first file has a row,
    followed by [headline_cpi_releases] if the second has one: at most these
    two tags, each once, in this order. *)
Theorem get_types_kalshi_data fed cpi :
  get_types (kalshi_data fed cpi)
  = (if fed is [] then [] else ["fed_levels"])
    ++ (if cpi is [] then [] else ["headline_cpi_releases"]).
Proof.
  unfold get_types, kalshi_data.
  rewrite fmap_app, apply_horizon_override_types, !load_and_process_csv_types.
  assert (unique (replicate (length cpi) "headline_cpi_releases")
          = if cpi is [] then [] else ["headline_cpi_releases"]) as Hcpi.
  { destruct cpi as [|c cpi]; [done|]. simpl length.
    rewrite <-(app_nil_r (replicate _ _)). by rewrite unique_replicate_app. }
  destruct fed as [|f fed]; [exact Hcpi|]. simpl length.
  rewrite unique_replicate_app, Hcpi.
  by destruct cpi.
Qed.

Lemma kalshi_data_fed_row fed cpi r :
  r ∈ kalshi_data fed cpi → type r = "fed_levels" →
  ∃ c, c ∈ fed ∧ contract_preamble r = csv_contract_preamble c ∧
       horizon_date r = match HORIZON_MAP !! csv_contract_preamble c with
                        | Some t => Some t
                        | None => csv_expiry_date c
                        end.
Proof.
  unfold kalshi_data, apply_horizon_override, load_and_process_csv.
  rewrite elem_of_app, <-list_fmap_compose, !list_elem_of_fmap.
  intros [(c & -> & Hc)|(c & -> & Hc)] Hty; [|done].
  by exists c.
Qed.

(** X13 (the override reaches the first file only).  In the assembled table
    there are as many rows as lines in the two files; a [fed_levels] row
    whose contract is a key of the override map carries the mapped horizon,
    so such a contract has one horizon over all its [fed_levels] rows; and
    every line of the second file is there with its own expiry date as
    horizon, whether or not its contract is a key of the map. *)
Theorem kalshi_data_override fed cpi :
  length (kalshi_data fed cpi) = (length fed + length cpi)%nat ∧
  (∀ r t, r ∈ kalshi_data fed cpi → type r = "fed_levels" →
          HORIZON_MAP !! contract_preamble r = Some t → horizon_date r = Some t) ∧
  (∀ c, c ∈ cpi →
        {| type := "headline_cpi_releases";
           contract_preamble := csv_contract_preamble c;
           prediction_date := csv_date c;
           horizon_date := csv_expiry_date c;
           strike := csv_strike c;
           probability := csv_probability c |} ∈ kalshi_data fed cpi).
Proof.
  split_and!.
  - unfold kalshi_data, apply_horizon_override, load_and_process_csv.
    by rewrite length_app, !length_fmap.
  - intros r t Hr Hty Ht.
    destruct (kalshi_data_fed_row fed cpi r Hr Hty) as (c & _ & Hc & ->).
    by rewrite <-Hc, Ht.
  - intros c Hc. unfold kalshi_data. apply elem_of_app. right.
    unfold load_and_process_csv. apply list_elem_of_fmap. by exists c.
Qed.

Lemma rows_of_contract_app t1 t2 contract :
  rows_of_contract (t1 ++ t2) contract
  = rows_of_contract t1 contract ++ rows_of_contract t2 contract.
Proof. apply filter_app. Qed.

(** X14 (horizon of an overridden contract).  On the assembled table, a
    contract that is a key of the override map and has a line in the first
    file is known, and its metadata give the mapped date as horizon date,
    whatever expiry dates the files carry for it. *)
Theorem get_contract_info_overridden now fed cpi contract t :
  HORIZON_MAP !! contract = Some t →
  contract ∈ csv_contract_preamble <$> fed →
  ∃ info, get_contract_info now (kalshi_data fed cpi) contract = Some info ∧
          info_horizon_date info = Some (t `div` ns_per_day)%Z.
Proof.
  intros Ht (c & -> & Hc)%list_elem_of_fmap.
  set (contract := csv_contract_preamble c) in *.
  set (A := apply_horizon_override (load_and_process_csv fed "fed_levels")).
  assert (∀ r, r ∈ rows_of_contract A contract → horizon_date r = Some t) as HA.
  { intros r [Hcon Hr]%list_elem_of_filter.
    unfold A, apply_horizon_override in Hr.
    apply list_elem_of_fmap in Hr as (r' & -> & Hr'). simpl in *.
    unfold override_horizon. by rewrite Hcon, Ht. }
  assert (∃ first rest, rows_of_contract A contract = first :: rest)
    as (first & rest & Hrows).
  { destruct (rows_of_contract A contract) as [|first rest] eqn:Hrows;
      [|by eauto].
    apply (filter_nil_not_elem_of _ _
             {| type := "fed_levels"; contract_preamble := contract;
                prediction_date := csv_date c;
                horizon_date := Some t;
                strike := csv_strike c; probability := csv_probability c |})
      in Hrows; [|done].
    destruct Hrows. unfold A, apply_horizon_override, load_and_process_csv.
    rewrite <-list_fmap_compose. apply list_elem_of_fmap. exists c.
    split; [|done]. simpl. unfold override_horizon. simpl.
    fold contract. by rewrite Ht. }
  destruct (get_contract_info_previous now (kalshi_data fed cpi) contract first
              (rest ++ rows_of_contract
                         (load_and_process_csv cpi "headline_cpi_releases") contract))
    as (info & prev & Hinfo & Hhor & _).
  { unfold kalshi_data. fold A. by rewrite rows_of_contract_app, Hrows. }
  exists info. split; [done|]. rewrite Hhor, (HA first); [done|].
  rewrite Hrows. by left.
Qed.

Lemma get_contract_info_overridden_witness :
  ∃ info,
    get_contract_info (midnight 2025 7 4)
      (kalshi_data
         [mkCsvRow (Some (midnight 2025 7 1)) (Some (midnight 2025 7 31))
            "FED-25JUL" (q 425 100) (q 1 1)] [])
      "FED-25JUL" = Some info ∧
    info_horizon_date info = Some (midnight 2025 7 30 `div` ns_per_day)%Z.
Proof.
  apply (get_contract_info_overridden (midnight 2025 7 4)
           [mkCsvRow (Some (midnight 2025 7 1)) (Some (midnight 2025 7 31))
              "FED-25JUL" (q 425 100) (q 1 1)] [] "FED-25JUL"
           (midnight 2025 7 30)).
  - by vm_compute.
  - by_evaluation.
Defined.

(** ** More on contract metadata *)

Lemma rows_of_contract_elem table contract r :
  r ∈ rows_of_contract table contract ↔ r ∈ table ∧ contract_preamble r = contract.
Proof. unfold rows_of_contract. rewrite list_elem_of_filter. tauto. Qed.

Lemma ns_per_day_pos : (0 < ns_per_day)%Z.
Proof. by vm_compute. Qed.

(** X15 (latest prediction date).  For a contract that has a row, the
    metadata give as latest prediction date the day of the greatest
    [prediction_date] of its rows, missing dates being skipped; the field is
    empty only when every row of the contract lacks a prediction date. *)
Theorem get_contract_info_latest now table contract first rest :
  rows_of_contract table contract = first :: rest →
  ∃ info,
    get_contract_info now table contract = Some info ∧
    match info_latest_prediction_date info with
    | Some d =>
        (∃ r p, r ∈ table ∧ contract_preamble r = contract ∧
                prediction_date r = Some p ∧ (p `div` ns_per_day = d)%Z) ∧
        (∀ r p, r ∈ table → contract_preamble r = contract →
                prediction_date r = Some p → (p `div` ns_per_day ≤ d)%Z)
    | None =>
        ∀ r, r ∈ table → contract_preamble r = contract → prediction_date r = None
    end.
Proof.
  intros Hrows. unfold get_contract_info. rewrite Hrows.
  eexists. split; [done|].
  change (info_latest_prediction_date _)
    with (date (dt_max (prediction_date <$> first :: rest))).
  assert (∀ r, r ∈ first :: rest ↔ r ∈ table ∧ contract_preamble r = contract)
    as Hmem.
  { intros r. rewrite <-Hrows. apply rows_of_contract_elem. }
  pose proof (dt_max_spec (prediction_date <$> first :: rest)) as Hmax.
  destruct (dt_max (prediction_date <$> first :: rest)) as [m|]; simpl.
  - destruct Hmax as [(r & Hr & Hin)%list_elem_of_fmap Hle]. split.
    + apply Hmem in Hin as [Hin Hc]. by exists r, m.
    + intros r' p Hr' Hc Hp. apply Z.div_le_mono; [apply ns_per_day_pos|].
      apply Hle. rewrite <-Hp. apply list_elem_of_fmap_2. by apply Hmem.
  - intros r Hr Hc. destruct (prediction_date r) as [p|] eqn:Hp; [|done].
    destruct (Hmax p). rewrite <-Hp. apply list_elem_of_fmap_2. by apply Hmem.
Qed.

Lemma get_contract_info_latest_witness :
  ∃ info,
    get_contract_info (midnight 2025 7 4) ex_table "FED-25JUL" = Some info ∧
    info_latest_prediction_date info = Some (days_from_civil 2025 7 1).
Proof.
  assert (∃ first rest, rows_of_contract ex_table "FED-25JUL" = first :: rest)
    as (first & rest & Hrows) by (eexists _, _; vm_compute; reflexivity).
  destruct (get_contract_info_latest (midnight 2025 7 4) _ _ _ _ Hrows)
    as (info & Hinfo & _).
  exists info. split; [done|].
  vm_compute in Hinfo. by injection Hinfo as <-.
Defined.

(** X16 (the previous horizon is resolved).  For a contract that has a row,
    a previous horizon date, when the metadata give one, is a day strictly
    before the day of the clock and not after the contract's own horizon
    date: a horizon still to come is never offered. *)
Theorem get_contract_info_previous_past now table contract first rest :
  rows_of_contract table contract = first :: rest →
  ∃ info,
    get_contract_info now table contract = Some info ∧
    ∀ d, info_previous_horizon_date info = Some d →
         (d < now `div` ns_per_day)%Z ∧
         ∃ h, info_horizon_date info = Some h ∧ (d ≤ h)%Z.
Proof.
  intros Hrows.
  destruct (get_contract_info_previous now table contract first rest Hrows)
    as (info & prev & Hinfo & Hhor & Hprev & Hlatest).
  exists info. split; [done|]. intros d Hd. rewrite Hprev in Hd.
  destruct prev as [h|]; [|done]. injection Hd as <-.
  destruct Hlatest as [(r & h0 & _ & _ & _ & Hh0 & Hlt & Htoday) _].
  split.
  - apply Z.div_lt_upper_bound; [apply ns_per_day_pos|].
    unfold normalize in Htoday. lia.
  - exists (h0 `div` ns_per_day)%Z. rewrite Hhor, Hh0. split; [done|].
    apply Z.div_le_mono; [apply ns_per_day_pos|lia].
Qed.

Lemma get_contract_info_previous_past_witness :
  ∃ info,
    get_contract_info (midnight 2025 7 4) ex_table "FED-25JUL" = Some info ∧
    ∀ d, info_previous_horizon_date info = Some d →
         (d < midnight 2025 7 4 `div` ns_per_day)%Z.
Proof.
  assert (∃ first rest, rows_of_contract ex_table "FED-25JUL" = first :: rest)
    as (first & rest & Hrows) by (eexists _, _; vm_compute; reflexivity).
  destruct (get_contract_info_previous_past (midnight 2025 7 4) _ _ _ _ Hrows)
    as (info & Hinfo & Hpast).
  exists info. split; [done|]. intros d Hd. by apply Hpast.
Defined.

(** ** Listing prediction dates *)

(** X17 (listing prediction dates).  The date list of a contract and
    category holds the [YYYY-MM-DD] texts of the prediction dates of the rows
    with that contract and that category, missing dates being skipped: each
    text once, in ascending order of texts; it is empty when no row
    matches. *)
Theorem get_prediction_dates_spec table contract data_type :
  Sorted String.leb (get_prediction_dates table contract data_type) ∧
  NoDup (get_prediction_dates table contract data_type) ∧
  ∀ x, x ∈ get_prediction_dates table contract data_type ↔
       ∃ r p, r ∈ table ∧ contract_preamble r = contract ∧ type r = data_type ∧
              prediction_date r = Some p ∧ strftime p = x.
Proof.
  set (filtered := filter (λ r, contract_preamble r = contract ∧ type r = data_type)
                     table).
  assert (get_prediction_dates table contract data_type
          = sort_by String.leb (unique (strftime <$> omap prediction_date filtered)))
    as ->.
  { unfold get_prediction_dates. fold filtered. by destruct filtered. }
  split_and!.
  - apply sort_by_Sorted. intros x y Hxy.
    by destruct (String.leb_total x y) as [Hle|Hle]; [congruence|].
  - rewrite sort_by_perm. apply NoDup_unique.
  - intros x. rewrite sort_by_perm, elem_of_unique, list_elem_of_fmap.
    setoid_rewrite list_elem_of_omap. unfold filtered.
    setoid_rewrite list_elem_of_filter. split.
    + intros (p & -> & r & [[Hc Ht] Hr] & Hp). by exists r, p.
    + intros (r & p & Hr & Hc & Ht & Hp & <-). exists p. split; [done|].
      by exists r.
Qed.

(** ** Keys of the answer, missing dates, unknown categories *)

Lemma series_at_NaT df : series_at df None = [].
Proof.
  unfold series_at. rewrite filter_none_row; [done|].
  intros r _ H. destruct (prediction_date r); exact H.
Qed.

(** X19 (keys of the answer and missing dates).  In the answer to a
    distribution query with readable date texts, the keys of [data] are the
    requested texts and nothing else; and a text that [pd.to_datetime] reads
    as [NaT] gets the empty series, since no row, not even one whose
    prediction date is missing, compares equal to [NaT]. *)
Theorem get_distribution_keys to_datetime table contract prediction_dates lo hi :
  readable_dates to_datetime prediction_dates →
  ∃ D, get_distribution to_datetime table contract prediction_dates lo hi = Some D ∧
       (∀ date_str, is_Some (data D !! date_str) ↔ date_str ∈ prediction_dates) ∧
       (∀ date_str, date_str ∈ prediction_dates →
                    to_datetime date_str = Some None →
                    data D !! date_str = Some []).
Proof.
  intros Hread.
  destruct (get_distribution_spec to_datetime table contract prediction_dates
              lo hi Hread) as (D & HD & _ & Hdata).
  exists D. split; [done|]. split.
  - intros date_str. rewrite Hdata.
    destruct (decide (date_str ∈ prediction_dates)) as [Hin|Hout].
    + split; [done|]. intros _.
      unfold readable_dates in Hread. rewrite Forall_forall in Hread.
      destruct (Hread _ Hin) as [d ->]. by eexists.
    + split; [by intros [? ?]|done].
  - intros date_str Hin HNaT. rewrite Hdata, decide_True, HNaT by done.
    simpl. by rewrite series_at_NaT.
Qed.

Lemma get_distribution_keys_witness :
  ∃ D, get_distribution iso_to_datetime
         [mkRow "fed_levels" "FED-25JUL" None (Some (midnight 2025 7 30))
            (q 425 100) (q 1 1)]
         "FED-25JUL" [""] None None = Some D ∧
       data D !! "" = Some [].
Proof.
  destruct (get_distribution_keys iso_to_datetime
              [mkRow "fed_levels" "FED-25JUL" None (Some (midnight 2025 7 30))
                 (q 425 100) (q 1 1)]
              "FED-25JUL" [""] None None) as (D & HD & _ & HNaT).
  - unfold readable_dates. by_evaluation.
  - exists D. split; [done|]. apply HNaT; [by_evaluation|reflexivity].
Defined.

(** X22 (unknown category).  For a category that tags no row of the table,
    the contract list is empty, and so is the prediction-date list of every
    contract. *)
Theorem unknown_category_empty table data_type :
  data_type ≠ "" → data_type ∉ type <$> table →
  get_contracts table (Some data_type) = [] ∧
  ∀ contract, get_prediction_dates table contract data_type = [].
Proof.
  intros Hne Hunknown.
  assert (∀ r, r ∈ table → type r ≠ data_type) as Hty.
  { intros r Hr <-. apply Hunknown. by apply list_elem_of_fmap_2. }
  split.
  - unfold get_contracts. rewrite bool_decide_eq_false_2 by done.
    by rewrite filter_none_row.
  - intros contract. unfold get_prediction_dates.
    rewrite filter_none_row; [done|]. intros r Hr [_ Ht]. by apply (Hty r).
Qed.

Lemma unknown_category_empty_witness :
  get_contracts ex_table (Some "payrolls") = [] ∧
  ∀ contract, get_prediction_dates ex_table contract "payrolls" = [].
Proof.
  apply (unknown_category_empty ex_table "payrolls"); [done|by_evaluation].
Defined.

(** ** The order of the rows, and bounds that meet *)

Lemma filter_perm (P : Bin → Prop) `{!∀ r, Decision (P r)} s1 s2 :
  s1 ≡ₚ s2 → filter P s1 ≡ₚ filter P s2.
Proof. intros Hperm. by rewrite Hperm. Qed.

Lemma handle_lower_bound_perm b s1 s2 :
  s1 ≡ₚ s2 → handle_lower_bound b s1 ≡ₚ handle_lower_bound b s2.
Proof.
  intros Hperm. unfold handle_lower_bound.
  rewrite (sum_probability_perm _ _ (filter_perm (λ r, r.1 < b) _ _ Hperm)).
  pose proof (filter_perm (λ r, b ≤ r.1) _ _ Hperm) as Hkept.
  destruct (decide (0 < _)); [|done].
  destruct (decide (b ∉ (filter (λ r, b ≤ r.1) s1).*1)) as [H1|H1];
    destruct (decide (b ∉ (filter (λ r, b ≤ r.1) s2).*1)) as [H2|H2].
  - by rewrite Hkept.
  - destruct H2. by rewrite <-Hkept.
  - destruct H1. by rewrite Hkept.
  - unfold add_lump. by rewrite Hkept.
Qed.

Lemma handle_upper_bound_perm b s1 s2 :
  s1 ≡ₚ s2 → handle_upper_bound b s1 ≡ₚ handle_upper_bound b s2.
Proof.
  intros Hperm. unfold handle_upper_bound.
  rewrite (sum_probability_perm _ _ (filter_perm (λ r, b < r.1) _ _ Hperm)).
  pose proof (filter_perm (λ r, r.1 ≤ b) _ _ Hperm) as Hkept.
  destruct (decide (0 < _)); [|done].
  destruct (decide (b ∉ (filter (λ r, r.1 ≤ b) s1).*1)) as [H1|H1];
    destruct (decide (b ∉ (filter (λ r, r.1 ≤ b) s2).*1)) as [H2|H2].
  - by rewrite Hkept.
  - destruct H2. by rewrite <-Hkept.
  - destruct H1. by rewrite Hkept.
  - unfold add_lump. by rewrite Hkept.
Qed.

Lemma truncate_perm lo hi s1 s2 :
  s1 ≡ₚ s2 → truncate lo hi s1 ≡ₚ truncate lo hi s2.
Proof.
  intros Hperm. unfold truncate.
  assert (with_bound handle_lower_bound lo s1 ≡ₚ with_bound handle_lower_bound lo s2)
    as HL.
  { destruct lo; simpl; [by apply handle_lower_bound_perm|done]. }
  destruct hi; simpl; [by apply handle_upper_bound_perm|done].
Qed.

(** X20 (the order of the rows does not matter).  Two series with the same
    rows in different orders, with pairwise distinct strikes, are rebinned to
    the same series. *)
Theorem rebin_order_insensitive lo hi s1 s2 :
  NoDup s1.*1 → s1 ≡ₚ s2 → rebin lo hi s1 = rebin lo hi s2.
Proof.
  intros Hnd Hperm.
  destruct (decide (s1 = [])) as [->|Hne1].
  { by apply Permutation_nil_l in Hperm as ->. }
  assert (s2 ≠ []) as Hne2.
  { intros ->. by apply Permutation_nil_r in Hperm. }
  rewrite !rebin_truncate by done.
  symmetry. apply sort_values_unique.
  - by apply truncate_preserves.
  - by rewrite sort_values_perm, (truncate_perm lo hi s1 s2).
  - apply sort_values_sorted.
Qed.

Lemma rebin_order_insensitive_witness :
  rebin (Some (q 15 1)) (Some (q 25 1)) ex_series
  = rebin (Some (q 15 1)) (Some (q 25 1)) (reverse ex_series).
Proof.
  apply (rebin_order_insensitive (Some (q 15 1)) (Some (q 25 1))
           ex_series (reverse ex_series)).
  - by_evaluation.
  - symmetry. apply reverse_Permutation.
Defined.

Lemma single_strike (l : list Bin) b :
  NoDup l.*1 → Forall (λ r, r.1 = b) l → l = [] ∨ ∃ p, l = [(b, p)].
Proof.
  destruct l as [|[x p] l]; [by left|]. intros Hnd Hall. right.
  apply Forall_cons in Hall as [Hx Hall]. simpl in Hx. subst x. exists p.
  destruct l as [|[y p'] l]; [done|].
  apply Forall_cons in Hall as [Hy _]. simpl in Hy. subst y.
  rewrite !fmap_cons in Hnd. apply NoDup_cons in Hnd as [Hnot _].
  destruct Hnot. by left.
Qed.

(** An upper bound at or below every strike folds a series of positive mass
    into one row at the bound. *)
Lemma handle_upper_bound_floor b L :
  NoDup L.*1 → nonneg L → Forall (λ r, b ≤ r.1) L → 0 < sum_probability L →
  handle_upper_bound b L = [(b, sum_probability L)].
Proof.
  intros Hnd Hnn Hfloor Hpos.
  pose proof (sum_probability_split (λ r, b < r.1) (λ r, r.1 ≤ b) L
                (gt_le_complement b)) as Hsplit.
  assert (Forall (λ r, r.1 = b) (filter (λ r, r.1 ≤ b) L)) as Hat.
  { apply Forall_forall. intros r [Hle Hr]%list_elem_of_filter.
    rewrite Forall_forall in Hfloor. by apply (anti_symm Qcle); [|apply Hfloor]. }
  destruct (single_strike _ b (filter_NoDup_strikes (λ r, r.1 ≤ b) L Hnd) Hat)
    as [Hk|[p Hk]]; unfold handle_upper_bound; rewrite Hk in *.
  - simpl in Hsplit. rewrite Qcplus_0_r in Hsplit. rewrite Hsplit.
    rewrite decide_True by done. reflexivity.
  - simpl in Hsplit. rewrite Qcplus_0_r in Hsplit.
    destruct (decide (0 < sum_probability (filter (λ r, b < r.1) L))) as [Hl|Hl].
    + rewrite decide_False.
      * unfold add_lump. simpl. rewrite decide_True by done.
        do 2 f_equal. rewrite <-Hsplit. ring.
      * intros Hnot. apply Hnot. simpl. by left.
    + assert (sum_probability (filter (λ r, b < r.1) L) = 0) as Hz.
      { apply (anti_symm Qcle); [by apply Qcnot_lt_le|].
        by apply sum_probability_nonneg, filter_nonneg. }
      rewrite Hz, Qcplus_0_l in Hsplit. by rewrite Hsplit.
Qed.

(** X21 (bounds that meet).  When both bounds are the same value, a series
    with pairwise distinct strikes, non-negative probabilities and positive
    total mass is rebinned to the single row (bound, total mass). *)
Theorem rebin_meeting_bounds b s :
  NoDup s.*1 → nonneg s → 0 < sum_probability s →
  rebin (Some b) (Some b) s = [(b, sum_probability s)].
Proof.
  intros Hnd Hs Hpos.
  assert (s ≠ []) as Hne.
  { intros ->. by apply (irreflexivity Qclt 0). }
  rewrite rebin_truncate by done. unfold truncate. simpl.
  destruct (handle_lower_bound_preserves b s) as [HLnd HLnn HLsum].
  rewrite handle_upper_bound_floor; auto.
  - by rewrite HLsum.
  - apply handle_lower_bound_strikes.
  - by rewrite HLsum.
Qed.

Lemma rebin_meeting_bounds_witness :
  rebin (Some (q 20 1)) (Some (q 20 1)) ex_series
  = [(q 20 1, sum_probability ex_series)].
Proof.
  apply (rebin_meeting_bounds (q 20 1) ex_series); by_evaluation.
Defined.
